(** * RBI circulars bot: a shallow embedding of [rbi_bot.py]

    The program polls an RSS feed, computes the entries that are newer
    than a persisted watermark, and for each of them posts a header and a
    summary to a Telegram chat.  This file embeds the program together
    with the parts of the Python libraries its behaviour depends on
    ([str] methods, [textwrap.wrap], text-mode file I/O, the BeautifulSoup
    tree queries), and proves the properties of the specification. *)

From Stdlib Require Import Ascii String DecimalString.
From Stdlib Require Import List NArith ZArith Lia Bool Arith.
Import ListNotations.

Set Implicit Arguments.

(** ** Python strings

    A Python [str] is a sequence of Unicode code points. *)

Definition char := N.
Definition str := list char.

(** String literals of the source. *)
Definition lit (s : string) : str := map N_of_ascii (list_ascii_of_string s).

(** What the [re] module takes from the Unicode database for code points
    above Latin-1: [alnum] is [str.isalnum] and [decimal] is the category
    of decimal digits.  Below 256 the classes are written out. *)
Record Unicode : Type := {
  alnum : char -> bool;
  decimal : char -> bool
}.

(** [==] on [str]. *)
Fixpoint str_eqb (a b : str) : bool :=
  match a, b with
  | [], [] => true
  | x :: a', y :: b' => N.eqb x y && str_eqb a' b'
  | _, _ => false
  end.

(** [str.isspace] on one character: the code points Python classifies as
    whitespace, which is what [str.strip()] removes. *)
Definition isspace (n : char) : bool :=
  ((9 <=? n) && (n <=? 13) || (28 <=? n) && (n <=? 32)
   || (n =? 133) || (n =? 160) || (n =? 5760)
   || (8192 <=? n) && (n <=? 8202) || (n =? 8232) || (n =? 8233)
   || (n =? 8239) || (n =? 8287) || (n =? 12288))%N.

Fixpoint lstrip (s : str) : str :=
  match s with
  | c :: s' => if isspace c then lstrip s' else s
  | [] => []
  end.

Definition rstrip (s : str) : str := rev (lstrip (rev s)).

(** [s.strip()] *)
Definition strip (s : str) : str := rstrip (lstrip s).

(** [sep.join(parts)] *)
Fixpoint join (sep : str) (parts : list str) : str :=
  match parts with
  | [] => []
  | [p] => p
  | p :: ps => p ++ sep ++ join sep ps
  end.

(** [str(n)] for an [int], as used by f-string interpolation. *)
Definition str_of_int (n : Z) : str :=
  lit (NilEmpty.string_of_int (Z.to_int n)).

Definition TAB : char := 9%N.
Definition LF : char := 10%N.
Definition CR : char := 13%N.
Definition SPACE : char := 32%N.
Definition QUOTE : char := 34%N.
Definition HYPHEN : char := 45%N.

(** ** [textwrap.wrap(text, width, replace_whitespace=False)]

    The functions of [textwrap.TextWrapper] on the path taken by
    [send_message]: every option other than [width] and
    [replace_whitespace] has its default ([expand_tabs], [tabsize = 8],
    [break_long_words], [drop_whitespace], [break_on_hyphens] on;
    empty indents; no [max_lines]; no [fix_sentence_endings]). *)

Module textwrap.

(** [textwrap._whitespace = '\t\n\x0b\x0c\r '] *)
Definition _whitespace (n : char) : bool :=
  ((9 <=? n) && (n <=? 13) || (n =? 32))%N.

(** [str.expandtabs(tabsize)]: [column] is the position in the current
    line; a tab becomes the spaces that reach the next tab stop, and
    LF or CR reset the column. *)
Fixpoint expandtabs_from (tabsize column : nat) (s : str) : str :=
  match s with
  | [] => []
  | c :: s' =>
      if N.eqb c TAB then
        if 0 <? tabsize then
          let incr := tabsize - (column mod tabsize) in
          repeat SPACE incr ++ expandtabs_from tabsize (column + incr) s'
        else expandtabs_from tabsize column s'
      else
        c :: expandtabs_from tabsize
               (if N.eqb c LF || N.eqb c CR then 0 else S column) s'
  end.

Definition expandtabs (tabsize : nat) (s : str) : str :=
  expandtabs_from tabsize 0 s.

(** [_munge_whitespace] with [expand_tabs] on and [replace_whitespace]
    off. *)
Definition _munge_whitespace (text : str) : str := expandtabs 8 text.

Section Wrapper.

Variable U : Unicode.

(** Character classes of [wordsep_re]. *)

(** [\d] *)
Definition re_digit (n : char) : bool :=
  if (n <? 256)%N then ((48 <=? n) && (n <=? 57))%N else decimal U n.

(** [\w]: alphanumerics and the underscore. *)
Definition re_word (n : char) : bool :=
  if (n <? 256)%N then
    ((48 <=? n) && (n <=? 57) || (65 <=? n) && (n <=? 90) || (n =? 95)
     || (97 <=? n) && (n <=? 122)
     || (n =? 170) || (n =? 178) || (n =? 179) || (n =? 181) || (n =? 185)
     || (n =? 186) || (188 <=? n) && (n <=? 190)
     || (192 <=? n) && (n <=? 214) || (216 <=? n) && (n <=? 246)
     || (248 <=? n))%N
  else alnum U n.

(** [letter = [^\d\W]] *)
Definition letter (c : char) : bool := re_word c && negb (re_digit c).

(** [word_punct]: a [\w] character or one of the punctuation marks
    exclamation mark, double quote, apostrophe, ampersand, full stop,
    comma, question mark. *)
Definition word_punct (n : char) : bool :=
  (re_word n || (n =? 33) || (n =? 34) || (n =? 39) || (n =? 38)
   || (n =? 46) || (n =? 44) || (n =? 63))%N.

Definition is_hyphen (c : char) : bool := N.eqb c HYPHEN.

(** The matcher for [wordsep_re] works on a position of the text, given
    as the characters before it in reverse ([prev], read by the
    look-behinds) and the characters after it ([rest]). *)

(** Length of the run matched by a greedy [-*]. *)
Fixpoint dash_run (rest : str) : nat :=
  match rest with
  | c :: rest' => if is_hyphen c then S (dash_run rest') else 0
  | [] => 0
  end.

(** [(?<=wp) -{2,} (?=\w)]: the length of the dash run, when it matches.
    Only the whole run can be followed by [\w]. *)
Definition em_dash (prev rest : str) : option nat :=
  match prev with
  | p :: _ =>
      if word_punct p then
        let n := dash_run rest in
        if 2 <=? n then
          match skipn n rest with
          | c :: _ => if re_word c then Some n else None
          | [] => None
          end
        else None
      else None
  | [] => None
  end.

(** [-(?: (?<=lt{2}-) | (?<=lt-lt-)) (?= lt -? lt)] at a position whose
    next character is the hyphen. *)
Definition hyphen_break (prev rest : str) : bool :=
  match rest with
  | h :: after =>
      is_hyphen h
      && (match prev with
          | l1 :: l2 :: more =>
              letter l1 &&
              (letter l2 ||
               (is_hyphen l2 &&
                match more with l3 :: _ => letter l3 | [] => false end))
          | _ => false
          end)
      && (match after with
          | a :: b :: more =>
              letter a &&
              (letter b ||
               (is_hyphen b &&
                match more with c :: _ => letter c | [] => false end))
          | _ => false
          end)
  | [] => false
  end.

(** [(?=ws|\Z)] *)
Definition end_of_word (rest : str) : bool :=
  match rest with
  | c :: _ => _whitespace c
  | [] => true
  end.

(** The lazy [nws+?] of the word alternative, after its first character:
    how many more characters the match takes.  The three endings are
    tried in the order of the pattern at each length. *)
Fixpoint scan_word (prev rest : str) : nat :=
  if hyphen_break prev rest then 1
  else if end_of_word rest then 0
  else match em_dash prev rest, rest with
       | Some _, _ => 0
       | None, c :: rest' => S (scan_word (c :: prev) rest')
       | None, [] => 0
       end.

(** Length of the run matched by the greedy [ws+]. *)
Fixpoint ws_run (rest : str) : nat :=
  match rest with
  | c :: rest' => if _whitespace c then S (ws_run rest') else 0
  | [] => 0
  end.

(** Length of the match of [wordsep_re] at a position with a next
    character [c]: whitespace, then em-dash, then word. *)
Definition match_len (prev : str) (c : char) (rest' : str) : nat :=
  if _whitespace c then ws_run (c :: rest')
  else match em_dash prev (c :: rest') with
       | Some n => n
       | None => S (scan_word (c :: prev) rest')
       end.

(** [wordsep_re.split(text)] without its empty strings: the pattern
    matches at every position before the end, so the pieces are the
    successive matches. *)
Fixpoint split_from (fuel : nat) (prev rest : str) : list str :=
  match fuel, rest with
  | S fuel', c :: rest' =>
      let n := match_len prev c rest' in
      firstn n rest :: split_from fuel' (rev (firstn n rest) ++ prev) (skipn n rest)
  | _, _ => []
  end.

(** [_split] with [break_on_hyphens] on. *)
Definition _split (text : str) : list str :=
  split_from (length text) [] text.

(** [chunk.strip() == ''] *)
Definition blank (chunk : str) : bool := forallb isspace chunk.

(** [chunk.rfind('-', 0, stop)] *)
Fixpoint rfind_hyphen_from (i stop : nat) (chunk : str) : option nat :=
  match stop, chunk with
  | S stop', c :: chunk' =>
      match rfind_hyphen_from (S i) stop' chunk' with
      | Some j => Some j
      | None => if is_hyphen c then Some i else None
      end
  | _, _ => None
  end.

Definition rfind_hyphen (chunk : str) (stop : nat) : option nat :=
  rfind_hyphen_from 0 stop chunk.

(** The stack [reversed_chunks] of the source is a list whose head is
    [reversed_chunks[-1]], the next chunk of the text. *)

(** [_handle_long_word], with [break_long_words] and [break_on_hyphens]
    on: returns the stack and the current line. *)
Definition _handle_long_word (reversed_chunks cur_line : list str)
    (cur_len width : nat) : list str * list str :=
  let space_left := if width <? 1 then 1 else width - cur_len in
  match reversed_chunks with
  | chunk :: below =>
      let end_ :=
        if space_left <? length chunk then
          match rfind_hyphen chunk space_left with
          | Some hyphen =>
              if (0 <? hyphen)
                 && existsb (fun c => negb (is_hyphen c)) (firstn hyphen chunk)
              then hyphen + 1 else space_left
          | None => space_left
          end
        else space_left in
      (skipn end_ chunk :: below, cur_line ++ [firstn end_ chunk])
  | [] => (reversed_chunks, cur_line)
  end.

(** The inner [while chunks] loop: pop chunks onto the line while they
    fit. Returns the line and the stack. *)
Fixpoint fill_line (width cur_len : nat) (chunks : list str)
  : list str * list str :=
  match chunks with
  | [] => ([], [])
  | c :: below =>
      if cur_len + length c <=? width then
        let (cur_line, chunks') := fill_line width (cur_len + length c) below in
        (c :: cur_line, chunks')
      else ([], chunks)
  end.

(** [del cur_line[-1]] when the last chunk of the line is blank. *)
Definition drop_trailing_blank (cur_line : list str) : list str :=
  match rev cur_line with
  | last :: _ => if blank last then removelast cur_line else cur_line
  | [] => cur_line
  end.

(** One pass of the outer [while chunks] loop of [_wrap_chunks], for a
    non-empty stack: the stack left and the line produced, if any. *)
Definition wrap_line (width : nat) (started : bool) (chunks : list str)
  : list str * option str :=
  let chunks1 :=
    match chunks with
    | c :: below => if blank c && started then below else chunks
    | [] => chunks
    end in
  let (cur_line, chunks2) := fill_line width 0 chunks1 in
  let cur_len := length (concat cur_line) in
  let (chunks3, cur_line1) :=
    match chunks2 with
    | c :: _ =>
        if width <? length c
        then _handle_long_word chunks2 cur_line cur_len width
        else (chunks2, cur_line)
    | [] => (chunks2, cur_line)
    end in
  let cur_line2 := drop_trailing_blank cur_line1 in
  match cur_line2 with
  | [] => (chunks3, None)
  | _ => (chunks3, Some (concat cur_line2))
  end.

(** The outer loop; [lines] accumulates the result.  Every pass removes
    a chunk or at least one character of the first chunk, so the loop
    ends within [fuel] passes when [fuel] bounds characters plus
    chunks. *)
Fixpoint wrap_loop (fuel width : nat) (lines chunks : list str) : list str :=
  match fuel, chunks with
  | S fuel', _ :: _ =>
      let (chunks', line) :=
        wrap_line width (match lines with [] => false | _ => true end) chunks in
      wrap_loop fuel' width
        (match line with Some l => lines ++ [l] | None => lines end) chunks'
  | _, _ => lines
  end.

(** [_wrap_chunks] for [width > 0] ([width <= 0] raises [ValueError];
    the program passes 4000). *)
Definition _wrap_chunks (width : nat) (chunks : list str) : list str :=
  wrap_loop (length (concat chunks) + length chunks) width [] chunks.

(** [textwrap.wrap(text, width, replace_whitespace=False)] *)
Definition wrap (text : str) (width : nat) : list str :=
  _wrap_chunks width (_split (_munge_whitespace text)).

End Wrapper.

End textwrap.

(** ** Text-mode file I/O

    [open(path, "w").write(s)] followed by [open(path).read()]: files are
    opened in text mode with the default [newline=None].  Writing
    translates LF to [os.linesep] (LF itself on POSIX, the system
    modelled here); reading translates CR LF and a lone CR to LF.  A
    file is modelled by the characters it holds: whether the encoding
    of the file can hold a string is checked when it is written (see
    [write] below), and a file that exists is taken to decode when it is
    read, as every file written by the program does. *)

Fixpoint universal_newlines (raw : str) : str :=
  match raw with
  | [] => []
  | c :: raw' =>
      if N.eqb c CR then
        match raw' with
        | d :: raw'' =>
            if N.eqb d LF then LF :: universal_newlines raw''
            else LF :: universal_newlines raw'
        | [] => [LF]
        end
      else c :: universal_newlines raw'
  end.

Definition text_write (s : str) : str := s.
Definition text_read (raw : str) : str := universal_newlines raw.

(** ** BeautifulSoup trees

    The parsed document: tags with their attributes and contents, the
    text strings that [get_text] collects, and the strings it leaves out
    (comments, declarations, the contents of script and style
    elements). *)

Module bs4.

Inductive Node : Type :=
| NavigableString (s : str)
| OtherString (s : str)
| Tag (name : str) (attrs : list (str * str)) (contents : list Node).

(** [tag.attrs.get(key)] *)
Fixpoint attr_get (attrs : list (str * str)) (key : str) : option str :=
  match attrs with
  | [] => None
  | (k, v) :: attrs' => if str_eqb k key then Some v else attr_get attrs' key
  end.

(** [tag.descendants]: the nodes below a tag, in document order. *)
Fixpoint descendants (n : Node) : list Node :=
  match n with
  | Tag _ _ contents => flat_map (fun c => c :: descendants c) contents
  | _ => []
  end.

(** Does a node match [find(name, id=ident)] / [find_all(name)]? *)
Definition matches (name : str) (ident : option str) (n : Node) : bool :=
  match n with
  | Tag nm attrs _ =>
      str_eqb nm name &&
      match ident with
      | None => true
      | Some i =>
          match attr_get attrs (lit "id") with
          | Some v => str_eqb v i
          | None => false
          end
      end
  | _ => false
  end.

(** [tag.find_all(name)] and [tag.find_all(name, id=ident)] *)
Definition find_all (n : Node) (name : str) (ident : option str) : list Node :=
  filter (matches name ident) (descendants n).

(** [tag.find(name, id=ident)]: the first match, or [None]. *)
Definition find (n : Node) (name : str) (ident : str) : option Node :=
  match find_all n name (Some ident) with
  | m :: _ => Some m
  | [] => None
  end.

(** The strings [get_text(strip=True)] yields: each text string of the
    descendants, stripped, the empty ones skipped. *)
Definition stripped_strings (n : Node) : list str :=
  flat_map (fun d =>
              match d with
              | NavigableString s =>
                  match strip s with [] => [] | t => [t] end
              | _ => []
              end) (descendants n).

(** [tag.get_text(separator, strip=True)] *)
Definition get_text (n : Node) (separator : str) : str :=
  join separator (stripped_strings n).

End bs4.

(** ** The outside world

    Exceptions that library calls raise; each is a subclass of
    [Exception]. *)

Inductive exn : Type :=
| Timeout
| ConnectionError
| IndexError
| KeyError
| TypeError
| AttributeError
| UnicodeEncodeError
| ParserRejectedMarkup
| InferenceError (message : str).

(** [requests.Response] *)
Record Response : Type := {
  status_code : Z;
  content : str;
  text : str
}.

(** An entry of [feed.entries]: the elements of the feed item that the
    program reads.  An item need not have them; reading an attribute
    the item lacks raises [AttributeError]. *)
Record Entry : Type := {
  title : option str;
  link : option str
}.

(** What the program does to the world, in order. *)
Inductive event : Type :=
| Get (url : str)
| Post (url : str) (data : list (str * str))
| Summarization (model : option str) (input : str)
| Sleep (seconds : nat)
| Truncate (path : str)
| Write (path : str) (data : str).

(** The world: the watermark file (absent, or its characters on disk)
    and the events so far, oldest first. *)
Record World : Type := {
  last_title_file : option str;
  trace : list event
}.

(** The environment of a run: the configuration read from [os.environ]
    and the behaviour of the services and parsers the program calls.  A
    service answers from the request and the history of the run;
    [encodable] tells which strings the encoding of text files (the
    locale's) can hold; the HTML parser rejects some documents with
    [ParserRejectedMarkup]. *)
Record Env : Type := {
  TELEGRAM_BOT_TOKEN : str;
  TELEGRAM_CHAT_ID : str;
  HUGGINGFACE_TOKEN : str;
  unicode : Unicode;
  encodable : str -> bool;
  requests_get : list event -> str -> exn + Response;
  requests_post : list event -> str -> list (str * str) -> exn + Response;
  feedparser_parse : str -> list Entry;
  BeautifulSoup : str -> exn + bs4.Node;
  client_summarization :
    list event -> option str -> str -> exn + list (list (str * str))
}.

(** ** Computations: state and exceptions *)

Inductive outcome (A : Type) : Type :=
| Returned (a : A)
| Raised (e : exn).
Arguments Raised {A} e.

Definition M (A : Type) : Type := World -> outcome A * World.

Definition ret {A} (a : A) : M A := fun w => (Returned a, w).

Definition bind {A B} (m : M A) (k : A -> M B) : M B :=
  fun w =>
    match m w with
    | (Returned a, w') => k a w'
    | (Raised e, w') => (Raised e, w')
    end.

Notation "x <- m ;; k" := (bind m (fun x => k))
  (at level 61, m at next level, right associativity).
Notation "m ;; k" := (bind m (fun _ => k))
  (at level 61, right associativity).

(** [try: m  except Exception: h] *)
Definition try_except {A} (m : M A) (h : exn -> M A) : M A :=
  fun w =>
    match m w with
    | (Returned a, w') => (Returned a, w')
    | (Raised e, w') => h e w'
    end.

(** [for x in xs: body x] *)
Fixpoint for_each {A} (xs : list A) (body : A -> M unit) : M unit :=
  match xs with
  | [] => ret tt
  | x :: xs' => body x ;; for_each xs' body
  end.

Definition emit (e : event) : M unit :=
  fun w => (Returned tt,
            {| last_title_file := last_title_file w;
               trace := trace w ++ [e] |}).

Definition lift {A} (r : exn + A) : M A :=
  fun w => match r with
           | inl e => (Raised e, w)
           | inr a => (Returned a, w)
           end.

(** ** The program

    The functions of [rbi_bot.py], in the order of the source.  Its
    [print] calls write diagnostics to standard output and are left
    out: standard output is taken to accept them. *)

Definition RSS_FEED : str := lit "https://www.rbi.org.in/pressreleases_rss.xml".
Definition LAST_TITLE_FILE : str := lit "last_title.txt".

(** The link symbol U+1F517 of the summary message. *)
Definition LINK_SYMBOL : char := 128279%N.

Section Program.

Variable env : Env.

(** [requests.get(url, headers=HEADERS, timeout=10)] *)
Definition get (url : str) : M Response :=
  fun w => bind (emit (Get url)) (fun _ => lift (requests_get env (trace w) url)) w.

(** [requests.post(url, data=data)] *)
Definition post (url : str) (data : list (str * str)) : M Response :=
  fun w => bind (emit (Post url data))
             (fun _ => lift (requests_post env (trace w) url data)) w.

(** [time.sleep(seconds)] *)
Definition sleep (seconds : nat) : M unit := emit (Sleep seconds).

(** [client.summarization] called with the positional arguments
    [args] and the keyword [model].  The method is
    [summarization(self, text, *, ..., model=None)]: the text is its
    only positional parameter and [model] is keyword-only.  Python binds
    the arguments before the method runs, so a call with any other
    number of positional arguments raises [TypeError] and no request is
    made. *)
Definition summarization (args : list str) (model : option str)
  : M (list (list (str * str))) :=
  match args with
  | [input] =>
      fun w => bind (emit (Summarization model input))
                 (fun _ => lift (client_summarization env (trace w) model
                                   input)) w
  | _ => lift (inl TypeError)
  end.

(** [output[0]] *)
Definition item0 {A} (output : list A) : M A :=
  match output with
  | x :: _ => ret x
  | [] => lift (inl IndexError)
  end.

(** [d[key]] *)
Definition getitem (d : list (str * str)) (key : str) : M str :=
  match bs4.attr_get d key with
  | Some v => ret v
  | None => lift (inl KeyError)
  end.

Definition summarize (text : str) : M str :=
  try_except
    (output <- summarization [lit "facebook/bart-large-cnn"; text] None ;;
     first <- item0 output ;;
     getitem first (lit "summary_text"))
    (fun _ => ret (lit "(summary unavailable)")).

Definition send_message (text : str) : M unit :=
  let url := lit "https://api.telegram.org/bot" ++ TELEGRAM_BOT_TOKEN env
             ++ lit "/sendMessage" in
  for_each (textwrap.wrap (unicode env) text 4000) (fun chunk =>
    _ <- post url [(lit "chat_id", TELEGRAM_CHAT_ID env);
                   (lit "text", chunk);
                   (lit "parse_mode", lit "HTML")] ;;
    sleep 1).

Definition fetch_full_text (url : str) : M str :=
  r <- get url ;;
  if negb (status_code r =? 200)%Z then
    ret (lit "(Could not fetch content; HTTP " ++ str_of_int (status_code r)
         ++ lit ")")
  else
    soup <- lift (BeautifulSoup env (content r)) ;;
    match bs4.find soup (lit "span") (lit "ctl00_Content_Main_lblRelease") with
    | Some span => ret (bs4.get_text span [LF])
    | None =>
        match bs4.find soup (lit "div")
                (lit "ctl00_Content_Main_panelPressRelease") with
        | Some panel =>
            let paras := bs4.find_all panel (lit "p") None in
            ret (join [LF; LF]
                   (map (fun p => bs4.get_text p [])
                      (filter (fun p => 20 <? length (bs4.get_text p []))
                         paras)))
        | None => ret (bs4.get_text soup [LF])
        end
    end.

Definition load_last_title : M str :=
  fun w =>
    match last_title_file w with
    | Some raw => (Returned (strip (text_read raw)), w)
    | None => (Returned [], w)
    end.

(** [open(LAST_TITLE_FILE, "w")]: the file is created, or emptied if
    it exists.  The working directory is taken to be writable. *)
Definition open_w : M unit :=
  fun w => (Returned tt,
            {| last_title_file := Some [];
               trace := trace w ++ [Truncate LAST_TITLE_FILE] |}).

(** [f.write(s)]: the text layer encodes [s] and appends it; when the
    encoding cannot hold [s] it raises [UnicodeEncodeError] and nothing
    is written. *)
Definition write (s : str) : M unit :=
  fun w =>
    if encodable env s then
      (Returned tt,
       {| last_title_file :=
            Some (match last_title_file w with
                  | Some old => old ++ text_write s
                  | None => text_write s
                  end);
          trace := trace w ++ [Write LAST_TITLE_FILE s] |})
    else (Raised UnicodeEncodeError, w).

Definition save_last_title (title : str) : M unit :=
  open_w ;;
  write title.

(** [entry.title], [entry.link]: the value of the attribute, or
    [AttributeError] when the item has none. *)
Definition attribute (a : option str) : exn + str :=
  match a with
  | Some v => inr v
  | None => inl AttributeError
  end.

(** The loop of [main] that collects the new entries: it reads the
    title of each entry in turn and stops, before appending, at the
    first entry whose title is the stored one.  An entry without a
    title met before that makes the loop raise. *)
Fixpoint new_entries_of (last_title : str) (entries : list Entry)
  : exn + list Entry :=
  match entries with
  | [] => inr []
  | entry :: entries' =>
      match attribute (title entry) with
      | inl e => inl e
      | inr t =>
          if str_eqb t last_title then inr []
          else match new_entries_of last_title entries' with
               | inl e => inl e
               | inr new_entries => inr (entry :: new_entries)
               end
      end
  end.

(** The body of the processing loop of [main]. *)
Definition process (entry : Entry) : M unit :=
  entry_title <- lift (attribute (title entry)) ;;
  send_message (lit "<b>" ++ entry_title ++ lit "</b>") ;;
  entry_link <- lift (attribute (link entry)) ;;
  full_text <- fetch_full_text entry_link ;;
  summary <- summarize full_text ;;
  send_message (summary ++ [LF; LF; LINK_SYMBOL] ++ lit " <a href="
                ++ [QUOTE] ++ entry_link ++ [QUOTE]
                ++ lit ">Read full circular</a>").

Definition main : M unit :=
  resp <- get RSS_FEED ;;
  if negb (status_code resp =? 200)%Z then ret tt
  else
    let entries := feedparser_parse env (content resp) in
    match entries with
    | [] => ret tt
    | _ =>
        last_title <- load_last_title ;;
        new_entries <- lift (new_entries_of last_title entries) ;;
        match new_entries with
        | [] => ret tt
        | newest :: _ =>
            for_each (rev new_entries) process ;;
            newest_title <- lift (attribute (title newest)) ;;
            save_last_title newest_title
        end
    end.

End Program.

(** ** Vocabulary of the properties *)

(** The stored watermark: what [load_last_title] returns in a world. *)
Definition watermark (w : World) : str :=
  match last_title_file w with
  | Some raw => strip (text_read raw)
  | None => []
  end.

(** Events that change a file: opening it for writing (which empties
    it) and writing to it. *)
Definition is_write (e : event) : bool :=
  match e with Write _ _ | Truncate _ => true | _ => false end.

Definition is_post (e : event) : bool :=
  match e with Post _ _ => true | _ => false end.

Definition is_summarization (e : event) : bool :=
  match e with Summarization _ _ => true | _ => false end.

(** A computation is quiet when it leaves the watermark file alone and
    adds no [Truncate] and no [Write] to the trace. *)
Definition quiet {A} (m : M A) : Prop :=
  forall w,
    last_title_file (snd (m w)) = last_title_file w /\
    exists es, trace (snd (m w)) = trace w ++ es /\ filter is_write es = [].

(** A string has no leading and no trailing whitespace. *)
Definition no_surrounding_whitespace (s : str) : Prop :=
  match s with [] => True | c :: _ => isspace c = false end /\
  match rev s with [] => True | c :: _ => isspace c = false end.

(** The fallback text in the words of the specification: the paragraphs
    that are children of the container, those whose stripped text is
    longer than the threshold, joined by blank lines. *)
Definition paragraph_children_text (panel : bs4.Node) : str :=
  join [LF; LF]
    (filter (fun t => 20 <? length t)
       (map (fun p => bs4.get_text p [])
          (filter (bs4.matches (lit "p") None)
             match panel with
             | bs4.Tag _ _ contents => contents
             | _ => []
             end))).

(** *** Vocabulary for wrapping *)

(** The whitespace-delimited words of a text, for the whitespace of
    [textwrap]. *)
Fixpoint words (s : str) : list str :=
  match s with
  | [] => []
  | c :: s' =>
      if textwrap._whitespace c then words s'
      else match s' with
           | d :: _ =>
               if textwrap._whitespace d then [c] :: words s'
               else match words s' with
                    | w :: ws => (c :: w) :: ws
                    | [] => [[c]]
                    end
           | [] => [[c]]
           end
  end.

(** The last character of [s], or [p] when [s] is empty. *)
Definition last_char (p : option char) (s : str) : option char :=
  match rev s with
  | c :: _ => Some c
  | [] => p
  end.

(** A cut between the adjacent characters [a] and [c] does not split a
    word unless it is next to a hyphen: one of the two is whitespace, or
    one of the two is a hyphen. *)
Definition cut_ok (a c : char) : bool :=
  textwrap._whitespace a || textwrap._whitespace c
  || textwrap.is_hyphen a || textwrap.is_hyphen c.

(** The cut between a text ending in [p] and the text [s] that follows
    it directly. *)
Definition cut_before (p : option char) (s : str) : Prop :=
  match p, s with
  | Some a, c :: _ => cut_ok a c = true
  | _, _ => True
  end.

(** [wrapped p text lines]: [lines] are pieces of [text], in order and
    separated by gaps (possibly empty) of text that was dropped; each gap
    is blank; no line is empty; where a line follows the previous one
    (or the text before, ending in [p]) without a gap, the cut is
    [cut_ok]. *)
Inductive wrapped : option char -> str -> list str -> Prop :=
| wrapped_end (p : option char) (gap : str) :
    textwrap.blank gap = true -> wrapped p gap []
| wrapped_line (p : option char) (gap line rest : str) (lines : list str) :
    textwrap.blank gap = true ->
    line <> [] ->
    (gap = [] -> cut_before p line) ->
    wrapped (last_char p line) rest lines ->
    wrapped p (gap ++ line ++ rest) (line :: lines).

(** The loop of [_wrap_chunks] without its accumulator: the lines still
    to come; [started] tells whether a line was produced before. *)
Fixpoint wrap_from (fuel width : nat) (started : bool) (chunks : list str)
  : list str :=
  match fuel, chunks with
  | S fuel', _ :: _ =>
      let (chunks', line) := textwrap.wrap_line width started chunks in
      match line with
      | Some l => l :: wrap_from fuel' width true chunks'
      | None => wrap_from fuel' width started chunks'
      end
  | _, _ => []
  end.

(** The chunks a text is split into, for a text before them ending in
    [p]: none is empty, a chunk longer than the width is whitespace, and
    the cut between two adjacent chunks is [cut_ok]. *)
Fixpoint chunks_ok (width : nat) (p : option char) (chunks : list str)
  : Prop :=
  match chunks with
  | [] => True
  | c :: below =>
      c <> [] /\
      (length c <= width \/ forallb textwrap._whitespace c = true) /\
      cut_before p c /\
      chunks_ok width (last_char p c) below
  end.

(** Characters plus chunks: what every pass of the loop decreases. *)
Definition measure (chunks : list str) : nat :=
  length (concat chunks) + length chunks.

(** Is [w] a contiguous part of [s]? *)
Fixpoint prefixb (w s : str) : bool :=
  match w, s with
  | [], _ => true
  | x :: w', y :: s' => N.eqb x y && prefixb w' s'
  | _ :: _, [] => false
  end.

Fixpoint infixb (w s : str) : bool :=
  prefixb w s || match s with [] => false | _ :: s' => infixb w s' end.

(** Length of the run of characters at the head of [s] that are not
    whitespace for [textwrap]. *)
Fixpoint nws_run (s : str) : nat :=
  match s with
  | c :: s' => if textwrap._whitespace c then 0 else S (nws_run s')
  | [] => 0
  end.

(** The content of a text: its characters that are not whitespace for
    [str.isspace], in order. *)
Definition nonspace (s : str) : str := filter (fun c => negb (isspace c)) s.

(** The events of sending the chunks in order: for each one a request
    to the [sendMessage] method, then the pause of one second. *)
Definition transmissions (env : Env) (chunks : list str) : list event :=
  flat_map
    (fun chunk =>
       [Post (lit "https://api.telegram.org/bot" ++ TELEGRAM_BOT_TOKEN env
              ++ lit "/sendMessage")
             [(lit "chat_id", TELEGRAM_CHAT_ID env);
              (lit "text", chunk);
              (lit "parse_mode", lit "HTML")];
        Sleep 1])
    chunks.

(** A text is its lines in order with blank text before, between and
    after them. *)
Inductive interleaved : str -> list str -> Prop :=
| interleaved_end gap :
    textwrap.blank gap = true -> interleaved gap []
| interleaved_line gap line rest lines :
    textwrap.blank gap = true ->
    line <> [] ->
    interleaved rest lines ->
    interleaved (gap ++ line ++ rest) (line :: lines).

(** The URLs requested with [requests.get] in a list of events, in
    order. *)
Definition fetched (es : list event) : list str :=
  flat_map (fun e => match e with Get url => [url] | _ => [] end) es.

(** The network answers every request: no [requests] call raises. *)
Definition reliable (env : Env) : Prop :=
  (forall h url, exists r, requests_get env h url = inr r) /\
  (forall h url data, exists r, requests_post env h url data = inr r).

(** The HTML parser accepts every document it is given. *)
Definition parser_accepts (env : Env) : Prop :=
  forall markup, exists soup, BeautifulSoup env markup = inr soup.

(** The events of processing an entry with the given title and link
    when nothing raises: the header message, the request for the page,
    and the message with the summary placeholder and the link line. *)
Definition entry_events (env : Env) (entry_title entry_link : str)
  : list event :=
  transmissions env
    (textwrap.wrap (unicode env)
       (lit "<b>" ++ entry_title ++ lit "</b>") 4000)
  ++ [Get entry_link]
  ++ transmissions env
       (textwrap.wrap (unicode env)
          (lit "(summary unavailable)" ++ [LF; LF; LINK_SYMBOL]
           ++ lit " <a href=" ++ [QUOTE] ++ entry_link ++ [QUOTE]
           ++ lit ">Read full circular</a>") 4000).

(** ** Worked inputs *)

Module Examples.

(** A Unicode database with nothing above Latin-1; the texts below are
    ASCII, on which the database is not consulted. *)
Definition latin1 : Unicode :=
  {| alnum := fun _ => false; decimal := fun _ => false |}.

Definition entry (t : string) : Entry :=
  {| title := Some (lit t);
     link := Some (lit "https://www.rbi.org.in/" ++ lit t) |}.

(** UTF-8 holds every string without a surrogate code point. *)
Definition utf8 (s : str) : bool :=
  forallb (fun c => (c <? 55296) || (57343 <? c))%N s.

Definition A := entry "A".
Definition B := entry "B".
Definition C := entry "C".
Definition D := entry "D".

Definition ok_response (body : str) : Response :=
  {| status_code := 200; content := body; text := body |}.

(** A page without the two known elements. *)
Definition plain_page : bs4.Node :=
  bs4.Tag (lit "[document]") []
    [bs4.Tag (lit "p") [] [bs4.NavigableString (lit "Circular text")]].

(** An environment whose services all answer; [feed] is what the feed
    parses to, [page] decides each page fetch, [summary] each
    summarization. *)
Definition make_env (feed : list Entry)
    (page : str -> exn + Response)
    (summary : str -> exn + list (list (str * str))) : Env :=
  {| TELEGRAM_BOT_TOKEN := lit "token";
     TELEGRAM_CHAT_ID := lit "chat";
     HUGGINGFACE_TOKEN := lit "hf";
     unicode := latin1;
     encodable := utf8;
     requests_get := fun _ url =>
       if str_eqb url RSS_FEED then inr (ok_response (lit "<rss/>"))
       else page url;
     requests_post := fun _ _ _ => inr (ok_response (lit "{}"));
     feedparser_parse := fun _ => feed;
     BeautifulSoup := fun _ => inr plain_page;
     client_summarization := fun _ _ input => summary input |}.

(** The same environment with another parsed page. *)
Definition with_page (env : Env) (soup : bs4.Node) : Env :=
  {| TELEGRAM_BOT_TOKEN := TELEGRAM_BOT_TOKEN env;
     TELEGRAM_CHAT_ID := TELEGRAM_CHAT_ID env;
     HUGGINGFACE_TOKEN := HUGGINGFACE_TOKEN env;
     unicode := unicode env;
     encodable := encodable env;
     requests_get := requests_get env;
     requests_post := requests_post env;
     feedparser_parse := feedparser_parse env;
     BeautifulSoup := fun _ => inr soup;
     client_summarization := client_summarization env |}.

Definition paragraph (t : string) : bs4.Node :=
  bs4.Tag (lit "p") [] [bs4.NavigableString (lit t)].

Definition release_span : bs4.Node :=
  bs4.Tag (lit "span") [(lit "id", lit "ctl00_Content_Main_lblRelease")]
    [bs4.NavigableString (lit " Release text ")].

Definition panel (contents : list bs4.Node) : bs4.Node :=
  bs4.Tag (lit "div")
    [(lit "id", lit "ctl00_Content_Main_panelPressRelease")] contents.

(** Both known elements are present, the fallback container first. *)
Definition both_page : bs4.Node :=
  bs4.Tag (lit "[document]") []
    [panel [paragraph "A paragraph of the press release panel."];
     release_span].

(** Only the fallback container; its long paragraph sits in a table
    cell, its short one is a child. *)
Definition nested_page : bs4.Node :=
  bs4.Tag (lit "[document]") []
    [panel
       [bs4.Tag (lit "table") []
          [bs4.Tag (lit "tr") []
             [bs4.Tag (lit "td") []
                [paragraph "The Reserve Bank of India today announced."]]];
        paragraph "Ends"]].

(** A text of 9000 characters whose longest word has 3990: the
    hyphenated word ends up across the first cut. *)
Definition hyphen_text : str :=
  repeat 97%N 3990 ++ lit " hello-world " ++ repeat 98%N 3000
  ++ lit " " ++ repeat 99%N 1996.

(** A text of 9000 characters in four words, with a line break kept
    inside the first chunk. *)
Definition long_text : str :=
  repeat 120%N 1000 ++ [LF] ++ repeat 121%N 2000 ++ lit " "
  ++ repeat 122%N 3000 ++ lit " " ++ repeat 117%N 2997.

(** A no-break space and a space: whitespace for [str.isspace], but
    the no-break space is not whitespace for [textwrap]. *)
Definition nbsp_text : str := [160%N; 32%N].

(** A short message with a tab and a line break. *)
Definition short_text : str :=
  lit "RBI" ++ [TAB] ++ lit "press release" ++ [LF] ++ lit "today".

(** No network and no service: every request raises. *)
Definition offline : Env :=
  {| TELEGRAM_BOT_TOKEN := lit "token";
     TELEGRAM_CHAT_ID := lit "chat";
     HUGGINGFACE_TOKEN := lit "hf";
     unicode := latin1;
     encodable := utf8;
     requests_get := fun _ _ => inl ConnectionError;
     requests_post := fun _ _ _ => inl ConnectionError;
     feedparser_parse := fun _ => [];
     BeautifulSoup := fun _ => inr plain_page;
     client_summarization := fun _ _ _ => inl ConnectionError |}.

Definition summary_ok (input : str) : exn + list (list (str * str)) :=
  inr [[(lit "summary_text", lit "Summary.")]].

Definition summary_down (input : str) : exn + list (list (str * str)) :=
  inl (InferenceError (lit "503")).

Definition page_ok (url : str) : exn + Response :=
  inr (ok_response (lit "<html/>")).

(** The page of the newest entry times out. *)
Definition page_timeout_A (url : str) : exn + Response :=
  if str_eqb url (lit "https://www.rbi.org.in/A") then inl Timeout
  else page_ok url.

Definition page_404 (url : str) : exn + Response :=
  inr {| status_code := 404; content := []; text := [] |}.

Definition page_timeout (url : str) : exn + Response := inl Timeout.

(** First run: no watermark file, nothing done yet. *)
Definition fresh : World := {| last_title_file := None; trace := [] |}.

Definition stored (t : str) : World :=
  {| last_title_file := Some t; trace := [] |}.

End Examples.

(** * Properties *)

(** ** Strings *)

Lemma str_eqb_eq (a b : str) : str_eqb a b = true <-> a = b.
Proof.
  revert b; induction a as [|x a IH]; intros [|y b]; simpl;
    try (split; (reflexivity || discriminate)).
  rewrite andb_true_iff, N.eqb_eq, IH.
  split; [intros [-> ->]; reflexivity | intros H; injection H; auto].
Qed.

Lemma str_eqb_refl (a : str) : str_eqb a a = true.
Proof. apply str_eqb_eq; reflexivity. Qed.

Lemma str_eqb_neq (a b : str) : a <> b -> str_eqb a b = false.
Proof.
  intros H; destruct (str_eqb a b) eqn:E; [|reflexivity].
  apply str_eqb_eq in E; contradiction.
Qed.

(** ** The delta: [new_entries_of] *)

Lemma new_entries_of_prefix (last_title : str) (pre post : list Entry)
    (stop : Entry) :
  Forall (fun e => exists t, title e = Some t /\ t <> last_title) pre ->
  title stop = Some last_title ->
  new_entries_of last_title (pre ++ stop :: post) = inr pre.
Proof.
  intros Hpre Hstop; induction Hpre as [|e pre [t [Ht He]] _ IH]; simpl.
  - rewrite Hstop; simpl; rewrite str_eqb_refl; reflexivity.
  - rewrite Ht; simpl; rewrite (str_eqb_neq He), IH; reflexivity.
Qed.

Lemma new_entries_of_all (last_title : str) (entries : list Entry) :
  Forall (fun e => exists t, title e = Some t /\ t <> last_title) entries ->
  new_entries_of last_title entries = inr entries.
Proof.
  induction 1 as [|e es [t [Ht He]] _ IH]; simpl; [reflexivity|].
  rewrite Ht; simpl; rewrite (str_eqb_neq He), IH; reflexivity.
Qed.

Lemma new_entries_of_titles (last_title : str) (entries new : list Entry) :
  new_entries_of last_title entries = inr new ->
  Forall (fun e => exists t, title e = Some t /\ t <> last_title) new.
Proof.
  revert new; induction entries as [|e es IH]; intros new; simpl.
  - intros H; injection H as <-; constructor.
  - destruct (title e) as [t|] eqn:Ht; simpl; [|discriminate].
    destruct (str_eqb t last_title) eqn:E;
      [intros H; injection H as <-; constructor|].
    destruct (new_entries_of last_title es) as [x|new']; [discriminate|].
    intros H; injection H as <-.
    constructor; [|apply IH; reflexivity].
    exists t; split; [exact Ht|].
    intros ->; rewrite str_eqb_refl in E; discriminate.
Qed.

(** C1, as the code has it: for a feed [A; B; C; D], newest first, whose
    first entry is not titled like [B], and a stored watermark equal to
    the title of [B], the new entries are exactly [A] (the loop stops at
    [B] before appending it), and the oldest-first processing order is
    [A] as well.  The entries [C] and [D] are never read. *)
Theorem delta_stops_before_watermark (a b c d : Entry) (ta tb : str) :
  title a = Some ta ->
  title b = Some tb ->
  ta <> tb ->
  exists new_entries,
    new_entries_of tb [a; b; c; d] = inr new_entries /\
    new_entries = [a] /\
    rev new_entries = [a].
Proof.
  intros Ha Hb Hab.
  exists [a]; split; [|split; reflexivity].
  apply (@new_entries_of_prefix tb [a] [c; d] b); [|exact Hb].
  constructor; [|constructor].
  exists ta; split; assumption.
Qed.

Lemma delta_stops_before_watermark_witness :
  exists new_entries,
    new_entries_of (lit "B")
      [Examples.A; Examples.B; Examples.C; Examples.D] = inr new_entries /\
    new_entries = [Examples.A] /\
    rev new_entries = [Examples.A].
Proof.
  apply (@delta_stops_before_watermark Examples.A Examples.B Examples.C
           Examples.D (lit "A") (lit "B"));
    [reflexivity | reflexivity | discriminate].
Defined.

(** C1 as the specification states it fails: on the feed [A; B; C; D]
    with watermark "B" the new entries are not [A; B], nor is the
    processing order [B; A]. *)
Lemma delta_excludes_watermark_entry :
  ~ (exists new_entries,
       new_entries_of (lit "B")
         [Examples.A; Examples.B; Examples.C; Examples.D] = inr new_entries /\
       new_entries = [Examples.A; Examples.B] /\
       rev new_entries = [Examples.B; Examples.A]).
Proof.
  intros [new_entries [H [E _]]]; subst new_entries.
  vm_compute in H; discriminate.
Qed.

(** ** Computations *)

Lemma world_eta (w : World) :
  {| last_title_file := last_title_file w; trace := trace w |} = w.
Proof. destruct w; reflexivity. Qed.

Lemma quiet_ret {A} (a : A) : quiet (ret a).
Proof.
  intros w; simpl; split; [reflexivity|].
  exists []; rewrite app_nil_r; auto.
Qed.

Lemma quiet_bind {A B} (m : M A) (k : A -> M B) :
  quiet m -> (forall a, quiet (k a)) -> quiet (bind m k).
Proof.
  intros Hm Hk w; unfold bind.
  destruct (Hm w) as [Hf [es [Ht Hw]]].
  destruct (m w) as [[a|e] w1]; simpl in *.
  - destruct (Hk a w1) as [Hf' [es' [Ht' Hw']]].
    split; [congruence|].
    exists (es ++ es'); split.
    + rewrite Ht', Ht, app_assoc; reflexivity.
    + rewrite filter_app, Hw, Hw'; reflexivity.
  - split; [assumption|]. exists es; auto.
Qed.

Lemma quiet_emit (e : event) : is_write e = false -> quiet (emit e).
Proof.
  intros He w; simpl; split; [reflexivity|].
  exists [e]; simpl; rewrite He; auto.
Qed.

Lemma quiet_lift {A} (r : exn + A) : quiet (lift r).
Proof.
  intros w; destruct r; simpl; (split; [reflexivity|]);
    exists []; rewrite app_nil_r; auto.
Qed.

Lemma quiet_try_except {A} (m : M A) (h : exn -> M A) :
  quiet m -> (forall e, quiet (h e)) -> quiet (try_except m h).
Proof.
  intros Hm Hh w; unfold try_except.
  destruct (Hm w) as [Hf [es [Ht Hw]]].
  destruct (m w) as [[a|e] w1]; simpl in *.
  - split; [assumption|]. exists es; auto.
  - destruct (Hh e w1) as [Hf' [es' [Ht' Hw']]].
    split; [congruence|].
    exists (es ++ es'); split.
    + rewrite Ht', Ht, app_assoc; reflexivity.
    + rewrite filter_app, Hw, Hw'; reflexivity.
Qed.

Lemma quiet_for_each {A} (xs : list A) (body : A -> M unit) :
  (forall x, quiet (body x)) -> quiet (for_each xs body).
Proof.
  intros Hb; induction xs as [|x xs IH]; simpl.
  - apply quiet_ret.
  - apply quiet_bind; [apply Hb | intros _; exact IH].
Qed.

Lemma quiet_ext {A} (m m' : M A) :
  (forall w, m w = m' w) -> quiet m' -> quiet m.
Proof. intros E H w; rewrite E; apply H. Qed.

Create HintDb quiet.

#[local] Hint Resolve quiet_ret quiet_bind quiet_emit quiet_lift
  quiet_try_except quiet_for_each : quiet.

Section ProgramFacts.

Variable env : Env.

Lemma get_returns (url : str) (w : World) (r : Response) :
  requests_get env (trace w) url = inr r ->
  get env url w =
    (Returned r, {| last_title_file := last_title_file w;
                    trace := trace w ++ [Get url] |}).
Proof. intros E; unfold get, bind; simpl; rewrite E; reflexivity. Qed.

Lemma get_raises (url : str) (w : World) (e : exn) :
  requests_get env (trace w) url = inl e ->
  get env url w =
    (Raised e, {| last_title_file := last_title_file w;
                  trace := trace w ++ [Get url] |}).
Proof. intros E; unfold get, bind; simpl; rewrite E; reflexivity. Qed.

Lemma quiet_get (url : str) : quiet (get env url).
Proof.
  intros w; unfold get, bind; simpl.
  destruct (requests_get env (trace w) url); simpl;
    (split; [reflexivity|]); exists [Get url]; auto.
Qed.

Lemma quiet_post (url : str) (data : list (str * str)) :
  quiet (post env url data).
Proof.
  intros w; unfold post, bind; simpl.
  destruct (requests_post env (trace w) url data); simpl;
    (split; [reflexivity|]); exists [Post url data]; auto.
Qed.

Lemma quiet_summarization (args : list str) (model : option str) :
  quiet (summarization env args model).
Proof.
  unfold summarization.
  destruct args as [|input [|second more]]; try apply quiet_lift.
  intros w; unfold bind; simpl.
  destruct (client_summarization env (trace w) model input); simpl;
    (split; [reflexivity|]); exists [Summarization model input]; auto.
Qed.

Lemma quiet_sleep (n : nat) : quiet (sleep n).
Proof. apply quiet_emit; reflexivity. Qed.

#[local] Hint Resolve quiet_get quiet_post quiet_summarization quiet_sleep
  : quiet.

Lemma quiet_send_message (text : str) : quiet (send_message env text).
Proof. unfold send_message; auto 10 with quiet. Qed.

Lemma quiet_summarize (text : str) : quiet (summarize env text).
Proof.
  unfold summarize, item0, getitem.
  apply quiet_try_except; [|auto with quiet].
  apply quiet_bind; [auto with quiet|]; intros output.
  apply quiet_bind.
  - destruct output; auto with quiet.
  - intros first; destruct (bs4.attr_get first _); auto with quiet.
Qed.

Lemma quiet_fetch_full_text (url : str) : quiet (fetch_full_text env url).
Proof.
  unfold fetch_full_text.
  apply quiet_bind; [auto with quiet|]; intros r.
  destruct (negb _); [auto with quiet|].
  apply quiet_bind; [auto with quiet|]; intros soup.
  destruct (bs4.find _ _ _); [auto with quiet|].
  destruct (bs4.find _ _ _); auto with quiet.
Qed.

#[local] Hint Resolve quiet_send_message quiet_summarize
  quiet_fetch_full_text : quiet.

Lemma quiet_process (entry : Entry) : quiet (process env entry).
Proof. unfold process; auto 10 with quiet. Qed.

Lemma load_last_title_watermark (w : World) :
  load_last_title w = (Returned (watermark w), w).
Proof.
  unfold load_last_title, watermark; destruct (last_title_file w);
    reflexivity.
Qed.

(** [main] up to the delta, when the feed was fetched and has
    entries. *)
Lemma main_up_to_delta (w : World) (resp : Response) :
  requests_get env (trace w) RSS_FEED = inr resp ->
  status_code resp = 200%Z ->
  feedparser_parse env (content resp) <> [] ->
  main env w =
    match new_entries_of (watermark w)
            (feedparser_parse env (content resp)) with
    | inl e => (Raised e, {| last_title_file := last_title_file w;
                             trace := trace w ++ [Get RSS_FEED] |})
    | inr [] => (Returned tt, {| last_title_file := last_title_file w;
                                 trace := trace w ++ [Get RSS_FEED] |})
    | inr (newest :: older) =>
        bind (for_each (rev (newest :: older)) (process env))
          (fun _ => bind (lift (attribute (title newest)))
                      (fun newest_title => save_last_title env newest_title))
          {| last_title_file := last_title_file w;
             trace := trace w ++ [Get RSS_FEED] |}
    end.
Proof.
  intros Hget H200 Hfeed.
  unfold main; unfold bind at 1; rewrite (get_returns _ _ Hget).
  rewrite H200; change (negb (200 =? 200)%Z) with false; cbv iota.
  destruct (feedparser_parse env (content resp)) as [|e es];
    [contradiction Hfeed; reflexivity|].
  unfold bind at 1; rewrite load_last_title_watermark.
  change (watermark {| last_title_file := last_title_file w;
                       trace := trace w ++ [Get RSS_FEED] |})
    with (watermark w).
  unfold bind at 1.
  destruct (new_entries_of (watermark w) (e :: es)) as [x|[|newest older]];
    reflexivity.
Qed.

(** [main] up to the processing loop, when the feed was fetched and some
    entry is new. *)
Lemma main_with_new_entries (w : World) (resp : Response)
    (newest : Entry) (older : list Entry) :
  requests_get env (trace w) RSS_FEED = inr resp ->
  status_code resp = 200%Z ->
  new_entries_of (watermark w) (feedparser_parse env (content resp))
    = inr (newest :: older) ->
  exists newest_title,
    title newest = Some newest_title /\
    main env w =
      bind (for_each (rev (newest :: older)) (process env))
           (fun _ => save_last_title env newest_title)
           {| last_title_file := last_title_file w;
              trace := trace w ++ [Get RSS_FEED] |}.
Proof.
  intros Hget H200 Hnew.
  pose proof (new_entries_of_titles _ _ Hnew) as Ht.
  inversion Ht as [|? ? [t [Htitle _]] _]; subst.
  exists t; split; [exact Htitle|].
  rewrite (main_up_to_delta _ Hget H200), Hnew.
  - unfold bind; destruct (for_each _ _ _) as [[[]|x] w2]; [|reflexivity].
    rewrite Htitle; reflexivity.
  - intros E; rewrite E in Hnew; discriminate Hnew.
Qed.

End ProgramFacts.

(** ** The orchestrator *)

(** C7: on a first run (no watermark file) [load_last_title] returns the
    empty string without failing, and with it every entry of a feed
    whose titles are all non-empty is new. *)
Theorem first_run_all_entries_new (w : World) (entries : list Entry) :
  last_title_file w = None ->
  Forall (fun e => exists t, title e = Some t /\ t <> []) entries ->
  exists last_title,
    load_last_title w = (Returned last_title, w) /\
    last_title = [] /\
    new_entries_of last_title entries = inr entries.
Proof.
  intros Hfile Htitles; exists []; split; [|split].
  - unfold load_last_title; rewrite Hfile; reflexivity.
  - reflexivity.
  - apply new_entries_of_all; exact Htitles.
Qed.

Lemma first_run_all_entries_new_witness :
  exists last_title,
    load_last_title Examples.fresh = (Returned last_title, Examples.fresh) /\
    last_title = [] /\
    new_entries_of last_title [Examples.A; Examples.B; Examples.C]
      = inr [Examples.A; Examples.B; Examples.C].
Proof.
  apply (@first_run_all_entries_new Examples.fresh
           [Examples.A; Examples.B; Examples.C]).
  - reflexivity.
  - repeat constructor; eexists; (split; [reflexivity | discriminate]).
Defined.

(** C8: when the feed is fetched and the stored watermark equals the
    title of its newest entry, the run returns having done nothing but
    the feed request: no message is posted and the watermark file is
    left as it was. *)
Theorem no_new_items_no_effects (env : Env) (w : World) (resp : Response)
    (newest : Entry) (older : list Entry) :
  requests_get env (trace w) RSS_FEED = inr resp ->
  status_code resp = 200%Z ->
  feedparser_parse env (content resp) = newest :: older ->
  title newest = Some (watermark w) ->
  exists w',
    main env w = (Returned tt, w') /\
    last_title_file w' = last_title_file w /\
    trace w' = trace w ++ [Get RSS_FEED] /\
    filter is_post (trace w') = filter is_post (trace w) /\
    filter is_write (trace w') = filter is_write (trace w).
Proof.
  intros Hget H200 Hfeed Hmark.
  exists {| last_title_file := last_title_file w;
            trace := trace w ++ [Get RSS_FEED] |}.
  split; [|simpl; rewrite !filter_app, !app_nil_r; auto].
  rewrite (main_up_to_delta _ _ Hget H200), Hfeed;
    [|rewrite Hfeed; discriminate].
  simpl; rewrite Hmark; simpl; rewrite str_eqb_refl; reflexivity.
Qed.

Lemma no_new_items_no_effects_witness :
  exists w',
    main (Examples.make_env [Examples.A; Examples.B] Examples.page_ok
            Examples.summary_ok) (Examples.stored (lit "A"))
      = (Returned tt, w') /\
    last_title_file w' = Some (lit "A") /\
    trace w' = [Get RSS_FEED].
Proof.
  destruct (@no_new_items_no_effects
              (Examples.make_env [Examples.A; Examples.B] Examples.page_ok
                 Examples.summary_ok)
              (Examples.stored (lit "A"))
              (Examples.ok_response (lit "<rss/>"))
              Examples.A [Examples.B])
    as [w' [Hmain [Hfile [Htrace _]]]]; try reflexivity.
  exists w'; auto.
Defined.

(** C3, as the code has it: in a run with at least one new entry the
    processing loop neither opens nor writes the watermark file.  When
    the loop completes for all new entries, [main] then opens the file
    for writing, which empties it, and writes the title of the newest
    new entry: when the encoding of the file can hold that title, this
    is the one write of the run and its last action; when it cannot,
    the write raises [UnicodeEncodeError], [main] raises it and the file
    is left empty.  When something raises inside the loop, [main] raises
    too and the file is neither opened nor written. *)
Theorem watermark_written_after_loop (env : Env) (w : World)
    (resp : Response) (newest : Entry) (older : list Entry) :
  requests_get env (trace w) RSS_FEED = inr resp ->
  status_code resp = 200%Z ->
  new_entries_of (watermark w) (feedparser_parse env (content resp))
    = inr (newest :: older) ->
  let w1 := {| last_title_file := last_title_file w;
               trace := trace w ++ [Get RSS_FEED] |} in
  let loop := for_each (rev (newest :: older)) (process env) w1 in
  exists newest_title loop_events,
    title newest = Some newest_title /\
    trace (snd loop) = trace w1 ++ loop_events /\
    filter is_write loop_events = [] /\
    last_title_file (snd loop) = last_title_file w /\
    match fst loop with
    | Returned _ =>
        if encodable env newest_title then
          main env w =
            (Returned tt,
             {| last_title_file := Some newest_title;
                trace := trace w1 ++ loop_events
                         ++ [Truncate LAST_TITLE_FILE;
                             Write LAST_TITLE_FILE newest_title] |})
        else
          main env w =
            (Raised UnicodeEncodeError,
             {| last_title_file := Some [];
                trace := trace w1 ++ loop_events
                         ++ [Truncate LAST_TITLE_FILE] |})
    | Raised e => main env w = (Raised e, snd loop)
    end.
Proof.
  intros Hget H200 Hnew w1 loop.
  destruct (quiet_for_each (rev (newest :: older)) (process env)
              (quiet_process env) w1) as [Hfile [es [Htrace Hwrites]]].
  fold loop in Hfile, Htrace.
  destruct (main_with_new_entries _ _ Hget H200 Hnew) as [t [Ht Hmain]].
  exists t, es; repeat split; try assumption.
  assert (Hm : main env w =
               match loop with
               | (Returned _, w') => save_last_title env t w'
               | (Raised e, w') => (Raised e, w')
               end) by (rewrite Hmain; reflexivity).
  rewrite Hm; clear Hm Hmain.
  destruct loop as [[[]|e] w2]; simpl in *; [|reflexivity].
  unfold save_last_title, bind, open_w, write, text_write; simpl.
  destruct (encodable env t); rewrite Htrace, <- !app_assoc; reflexivity.
Qed.

Lemma watermark_written_after_loop_witness :
  exists loop_events,
    filter is_write loop_events = [] /\
    main (Examples.make_env [Examples.A; Examples.B; Examples.C]
            Examples.page_ok Examples.summary_ok)
      (Examples.stored (lit "C"))
    = (Returned tt,
       {| last_title_file := Some (lit "A");
          trace := [Get RSS_FEED] ++ loop_events
                   ++ [Truncate LAST_TITLE_FILE;
                       Write LAST_TITLE_FILE (lit "A")] |}) /\
    fetched (trace (snd (main (Examples.make_env
                                 [Examples.A; Examples.B; Examples.C]
                                 Examples.page_ok Examples.summary_ok)
                           (Examples.stored (lit "C")))))
    = [RSS_FEED; lit "https://www.rbi.org.in/B";
       lit "https://www.rbi.org.in/A"].
Proof.
  destruct (@watermark_written_after_loop
              (Examples.make_env [Examples.A; Examples.B; Examples.C]
                 Examples.page_ok Examples.summary_ok)
              (Examples.stored (lit "C"))
              (Examples.ok_response (lit "<rss/>"))
              Examples.A [Examples.B] eq_refl eq_refl eq_refl)
    as [t [es [Ht [_ [Hwrites [_ Hmain]]]]]].
  injection Ht as <-.
  exists es; split; [exact Hwrites|]; split; [exact Hmain|].
  vm_compute; reflexivity.
Defined.

(** C3 as the specification states it fails: a run with two new entries
    in which the page of the second one processed times out has
    processed one entry in full (both its messages were posted) and
    sent the header of the other, yet ends with the watermark written
    zero times. *)
Lemma aborted_run_writes_no_watermark :
  let run := main (Examples.make_env [Examples.A; Examples.B]
                     Examples.page_timeout_A Examples.summary_ok)
               Examples.fresh in
  new_entries_of (watermark Examples.fresh) [Examples.A; Examples.B]
    = inr [Examples.A; Examples.B] /\
  fst run = Raised Timeout /\
  length (filter is_post (trace (snd run))) = 3 /\
  length (filter is_write (trace (snd run))) <> 1 /\
  last_title_file (snd run) = None.
Proof. vm_compute; repeat split; discriminate. Qed.

(** ** The content extractor and the notifier *)

(** C2, as the code has it: when the page request returns a response
    whose status is not 200, [fetch_full_text] returns the placeholder
    embedding the status code; when the request raises (a timeout, a
    connection error), nothing catches the exception and
    [fetch_full_text] raises it to its caller. *)
Theorem fetch_full_text_failed_fetch (env : Env) (url : str) (w : World) :
  (forall r,
     requests_get env (trace w) url = inr r ->
     status_code r <> 200%Z ->
     fst (fetch_full_text env url w)
     = Returned (lit "(Could not fetch content; HTTP "
                 ++ str_of_int (status_code r) ++ lit ")")) /\
  (forall e,
     requests_get env (trace w) url = inl e ->
     fst (fetch_full_text env url w) = Raised e).
Proof.
  split.
  - intros r Hget Hstatus.
    unfold fetch_full_text, bind; rewrite (get_returns _ _ _ Hget).
    apply Z.eqb_neq in Hstatus; rewrite Hstatus; reflexivity.
  - intros e Hget.
    unfold fetch_full_text, bind; rewrite (get_raises _ _ _ Hget).
    reflexivity.
Qed.

Lemma fetch_full_text_failed_fetch_witness :
  fst (fetch_full_text
         (Examples.make_env [] Examples.page_404 Examples.summary_ok)
         (lit "https://www.rbi.org.in/x") Examples.fresh)
  = Returned (lit "(Could not fetch content; HTTP 404)") /\
  fst (fetch_full_text
         (Examples.make_env [] Examples.page_timeout Examples.summary_ok)
         (lit "https://www.rbi.org.in/x") Examples.fresh)
  = Raised Timeout.
Proof.
  split.
  - apply (proj1 (fetch_full_text_failed_fetch
                    (Examples.make_env [] Examples.page_404
                       Examples.summary_ok)
                    (lit "https://www.rbi.org.in/x") Examples.fresh)
             {| status_code := 404; content := []; text := [] |});
      [reflexivity | discriminate].
  - apply (proj2 (fetch_full_text_failed_fetch
                    (Examples.make_env [] Examples.page_timeout
                       Examples.summary_ok)
                    (lit "https://www.rbi.org.in/x") Examples.fresh)
             Timeout); reflexivity.
Defined.

(** C2 as the specification states it fails: when the page request
    times out, [fetch_full_text] returns no placeholder; it raises. *)
Lemma fetch_full_text_timeout_raises :
  ~ (exists placeholder,
       fst (fetch_full_text
              (Examples.make_env [] Examples.page_timeout
                 Examples.summary_ok)
              (lit "https://www.rbi.org.in/x") Examples.fresh)
       = Returned placeholder).
Proof. intros [s H]; vm_compute in H; discriminate. Qed.

Lemma send_message_returns (env : Env) (text : str) (w : World) :
  reliable env -> fst (send_message env text w) = Returned tt.
Proof.
  intros [_ Hpost]; unfold send_message.
  generalize (textwrap.wrap (unicode env) text 4000); intros chunks.
  revert w; induction chunks as [|chunk chunks IH]; intros w; simpl;
    [reflexivity|].
  unfold bind at 1 2, post, bind, emit, sleep, emit; simpl.
  match goal with
  | |- context [requests_post env ?h ?u ?d] =>
      destruct (Hpost h u d) as [r ->]
  end.
  simpl; apply IH.
Qed.

(** ** The watermark store *)

Lemma lstrip_In (x : char) (s : str) : In x (lstrip s) -> In x s.
Proof.
  induction s as [|c s IH]; simpl; [auto|].
  destruct (isspace c); [right; auto | auto].
Qed.

Lemma lstrip_length (s : str) : length (lstrip s) <= length s.
Proof.
  induction s as [|c s IH]; simpl; [lia|].
  destruct (isspace c); simpl; lia.
Qed.

Lemma lstrip_fixed (s : str) :
  lstrip s = s <-> match s with [] => True | c :: _ => isspace c = false end.
Proof.
  destruct s as [|c s]; simpl; [tauto|].
  destruct (isspace c) eqn:E; split; auto; try discriminate.
  intros H; pose proof (lstrip_length s) as L.
  rewrite H in L; simpl in L; lia.
Qed.

Lemma lstrip_shorter (s : str) :
  lstrip s = s \/ length (lstrip s) < length s.
Proof.
  destruct s as [|c s]; simpl; [auto|].
  destruct (isspace c); [right | auto].
  pose proof (lstrip_length s); lia.
Qed.

Lemma strip_In (x : char) (s : str) : In x (strip s) -> In x s.
Proof.
  unfold strip, rstrip; intros H.
  apply in_rev, lstrip_In in H; apply in_rev in H.
  apply lstrip_In; exact H.
Qed.

Lemma strip_fixed (s : str) : strip s = s <-> no_surrounding_whitespace s.
Proof.
  unfold strip, rstrip, no_surrounding_whitespace; split.
  - intros H.
    assert (L : lstrip s = s).
    { destruct (lstrip_shorter s) as [L|L]; [exact L | exfalso].
      pose proof (lstrip_length (rev (lstrip s))) as L2.
      apply (f_equal (@length char)) in H as HL.
      rewrite length_rev in HL; rewrite length_rev in L2; lia. }
    split; [apply lstrip_fixed; exact L|].
    rewrite L in H; apply lstrip_fixed.
    apply (f_equal (@rev char)) in H; rewrite rev_involutive in H; exact H.
  - intros [Hhead Hlast].
    apply lstrip_fixed in Hhead; rewrite Hhead.
    apply lstrip_fixed in Hlast; rewrite Hlast.
    apply rev_involutive.
Qed.

Lemma universal_newlines_no_CR (raw : str) :
  ~ In CR (universal_newlines raw).
Proof.
  assert (H : forall n raw, length raw <= n ->
                            ~ In CR (universal_newlines raw)).
  { clear raw; induction n as [|n IH]; intros [|c raw] L; simpl in *;
      try tauto; try lia.
    destruct (N.eqb c CR) eqn:Ec.
    - destruct raw as [|d raw]; [intros [H|[]]; discriminate|].
      destruct (N.eqb d LF); intros [H|H]; try discriminate;
        revert H; apply IH; simpl in *; lia.
    - simpl; intros [H|H]; [subst c; discriminate|].
      revert H; apply IH; lia. }
  apply (H (length raw)); lia.
Qed.

Lemma universal_newlines_fixed (raw : str) :
  ~ In CR raw -> universal_newlines raw = raw.
Proof.
  induction raw as [|c raw IH]; simpl; [reflexivity|]; intros H.
  destruct (N.eqb c CR) eqn:Ec.
  - apply N.eqb_eq in Ec; tauto.
  - rewrite IH; tauto.
Qed.

(** C9, as the code has it.  For a title that the encoding of the file
    can hold, [save_last_title] returns and [load_last_title] right
    after it returns the title as text-mode reading gives it back (every
    CR LF and every lone CR became LF) with leading and trailing
    whitespace stripped.  For a title that the encoding cannot hold,
    [save_last_title] raises [UnicodeEncodeError] after the file was
    emptied, and [load_last_title] then returns the empty string.  The
    round trip of a title that can be held returns it unchanged exactly
    when it has no leading or trailing whitespace and contains no
    carriage return. *)
Theorem watermark_round_trip (env : Env) (t : str) (w : World) :
  (encodable env t = true ->
   fst (save_last_title env t w) = Returned tt /\
   fst (load_last_title (snd (save_last_title env t w)))
   = Returned (strip (universal_newlines t))) /\
  (encodable env t = false ->
   fst (save_last_title env t w) = Raised UnicodeEncodeError /\
   last_title_file (snd (save_last_title env t w)) = Some [] /\
   fst (load_last_title (snd (save_last_title env t w))) = Returned []) /\
  (strip (universal_newlines t) = t <->
   no_surrounding_whitespace t /\ ~ In CR t).
Proof.
  split; [|split].
  - intros He.
    unfold save_last_title, bind, open_w, write; simpl; rewrite He.
    split; reflexivity.
  - intros He.
    unfold save_last_title, bind, open_w, write; simpl; rewrite He.
    repeat split; reflexivity.
  - split.
    + intros H.
      assert (Hcr : ~ In CR t).
      { intros Hin; rewrite <- H in Hin; apply strip_In in Hin.
        exact (universal_newlines_no_CR _ Hin). }
      split; [|exact Hcr].
      rewrite (universal_newlines_fixed _ Hcr) in H.
      apply strip_fixed; exact H.
    + intros [Hws Hcr].
      rewrite (universal_newlines_fixed _ Hcr); apply strip_fixed; exact Hws.
Qed.

Lemma watermark_round_trip_witness :
  (fst (save_last_title
          (Examples.make_env [] Examples.page_ok Examples.summary_ok)
          (lit " Repo rate ") Examples.fresh) = Returned tt /\
   fst (load_last_title
          (snd (save_last_title
                  (Examples.make_env [] Examples.page_ok Examples.summary_ok)
                  (lit " Repo rate ") Examples.fresh)))
   = Returned (strip (universal_newlines (lit " Repo rate ")))) /\
  (fst (save_last_title
          (Examples.make_env [] Examples.page_ok Examples.summary_ok)
          [55296%N] (Examples.stored (lit "A")))
   = Raised UnicodeEncodeError /\
   last_title_file
     (snd (save_last_title
             (Examples.make_env [] Examples.page_ok Examples.summary_ok)
             [55296%N] (Examples.stored (lit "A")))) = Some [] /\
   fst (load_last_title
          (snd (save_last_title
                  (Examples.make_env [] Examples.page_ok Examples.summary_ok)
                  [55296%N] (Examples.stored (lit "A")))))
   = Returned []).
Proof.
  split.
  - apply (proj1 (watermark_round_trip
                    (Examples.make_env [] Examples.page_ok
                       Examples.summary_ok)
                    (lit " Repo rate ") Examples.fresh)).
    reflexivity.
  - apply (proj1 (proj2 (watermark_round_trip
                           (Examples.make_env [] Examples.page_ok
                              Examples.summary_ok)
                           [55296%N] (Examples.stored (lit "A"))))).
    reflexivity.
Defined.

(** C9 as the specification states it fails: the title [a CR b] has no
    leading or trailing whitespace and the file can hold it, yet what is
    loaded after saving it is neither the title nor the stripped title:
    it is [a LF b]. *)
Lemma carriage_return_not_round_tripped :
  let env := Examples.make_env [] Examples.page_ok Examples.summary_ok in
  let title := lit "a" ++ [CR] ++ lit "b" in
  let loaded :=
    fst (load_last_title (snd (save_last_title env title Examples.fresh))) in
  no_surrounding_whitespace title /\
  fst (save_last_title env title Examples.fresh) = Returned tt /\
  loaded = Returned (lit "a" ++ [LF] ++ lit "b") /\
  loaded <> Returned (strip title) /\
  loaded <> Returned title.
Proof.
  repeat split; try reflexivity; vm_compute; discriminate.
Qed.

(** ** Extraction strategies *)

(** The text extracted from a parsed page. *)
Lemma fetch_full_text_parsed (env : Env) (url : str) (w : World)
    (r : Response) (soup : bs4.Node) :
  requests_get env (trace w) url = inr r ->
  status_code r = 200%Z ->
  BeautifulSoup env (content r) = inr soup ->
  fetch_full_text env url w =
    (Returned
       match bs4.find soup (lit "span")
               (lit "ctl00_Content_Main_lblRelease") with
       | Some span => bs4.get_text span [LF]
       | None =>
           match bs4.find soup (lit "div")
                   (lit "ctl00_Content_Main_panelPressRelease") with
           | Some panel =>
               join [LF; LF]
                 (map (fun p => bs4.get_text p [])
                    (filter (fun p => 20 <? length (bs4.get_text p []))
                       (bs4.find_all panel (lit "p") None)))
           | None => bs4.get_text soup [LF]
           end
       end,
     {| last_title_file := last_title_file w;
        trace := trace w ++ [Get url] |}).
Proof.
  intros Hget H200 Hsoup.
  unfold fetch_full_text; unfold bind at 1; rewrite (get_returns _ _ _ Hget).
  rewrite H200; change (negb (200 =? 200)%Z) with false; cbv iota.
  unfold bind; rewrite Hsoup; simpl.
  destruct (bs4.find soup _ _); [reflexivity|].
  destruct (bs4.find soup _ _); reflexivity.
Qed.

Lemma fetch_full_text_rejected (env : Env) (url : str) (w : World)
    (r : Response) (e : exn) :
  requests_get env (trace w) url = inr r ->
  status_code r = 200%Z ->
  BeautifulSoup env (content r) = inl e ->
  fetch_full_text env url w =
    (Raised e, {| last_title_file := last_title_file w;
                  trace := trace w ++ [Get url] |}).
Proof.
  intros Hget H200 Hsoup.
  unfold fetch_full_text; unfold bind at 1; rewrite (get_returns _ _ _ Hget).
  rewrite H200; change (negb (200 =? 200)%Z) with false; cbv iota.
  unfold bind; rewrite Hsoup; reflexivity.
Qed.

Lemma fetch_full_text_status (env : Env) (url : str) (w : World)
    (r : Response) :
  requests_get env (trace w) url = inr r ->
  status_code r <> 200%Z ->
  fetch_full_text env url w =
    (Returned (lit "(Could not fetch content; HTTP "
               ++ str_of_int (status_code r) ++ lit ")"),
     {| last_title_file := last_title_file w;
        trace := trace w ++ [Get url] |}).
Proof.
  intros Hget Hstatus.
  unfold fetch_full_text, bind; rewrite (get_returns _ _ _ Hget).
  apply Z.eqb_neq in Hstatus; rewrite Hstatus; reflexivity.
Qed.

(** C5, as the code has it: for a page fetched with status 200, if the
    primary element (the first [span] with id
    [ctl00_Content_Main_lblRelease]) is present, the result is that
    element's text, lines joined by LF, whatever else the page holds;
    otherwise, if the fallback container (the first [div] with id
    [ctl00_Content_Main_panelPressRelease]) is present, the result is
    the texts, joined by blank lines and in document order, of exactly
    the [p] elements anywhere below the container ([find_all] searches
    all descendants, not only children) whose stripped text is longer
    than 20 characters. *)
Theorem extraction_priority (env : Env) (url : str) (w : World)
    (r : Response) (soup : bs4.Node) :
  requests_get env (trace w) url = inr r ->
  status_code r = 200%Z ->
  BeautifulSoup env (content r) = inr soup ->
  (forall span,
     bs4.find soup (lit "span") (lit "ctl00_Content_Main_lblRelease")
       = Some span ->
     fst (fetch_full_text env url w) = Returned (bs4.get_text span [LF])) /\
  (forall panel,
     bs4.find soup (lit "span") (lit "ctl00_Content_Main_lblRelease")
       = None ->
     bs4.find soup (lit "div") (lit "ctl00_Content_Main_panelPressRelease")
       = Some panel ->
     exists texts,
       fst (fetch_full_text env url w) = Returned (join [LF; LF] texts) /\
       texts = filter (fun t => 20 <? length t)
                 (map (fun p => bs4.get_text p [])
                    (filter (bs4.matches (lit "p") None)
                       (bs4.descendants panel))) /\
       (forall t,
          In t texts <->
          exists p, In p (bs4.descendants panel) /\
                    bs4.matches (lit "p") None p = true /\
                    t = bs4.get_text p [] /\ 20 < length t)).
Proof.
  intros Hget H200 Hsoup; split.
  - intros span Hspan.
    rewrite (fetch_full_text_parsed _ _ _ Hget H200 Hsoup), Hspan.
    reflexivity.
  - intros panel Hspan Hpanel.
    eexists; split; [|split; [reflexivity|]].
    + rewrite (fetch_full_text_parsed _ _ _ Hget H200 Hsoup), Hspan, Hpanel.
      simpl; f_equal; f_equal.
      unfold bs4.find_all.
      induction (filter _ (bs4.descendants panel)) as [|p ps IH];
        simpl; [reflexivity|].
      destruct (20 <? length (bs4.get_text p [])); simpl; rewrite IH;
        reflexivity.
    + intros t; rewrite filter_In, in_map_iff; split.
      * intros [[p [Ht Hp]] Hlen]; apply filter_In in Hp; destruct Hp.
        exists p; apply Nat.ltb_lt in Hlen; auto.
      * intros [p [Hin [Hp [Ht Hlen]]]]; split;
          [|apply Nat.ltb_lt; exact Hlen].
        exists p; split; [auto|]; apply filter_In; auto.
Qed.

Lemma extraction_priority_witness :
  fst (fetch_full_text
         (Examples.with_page
            (Examples.make_env [] Examples.page_ok Examples.summary_ok)
            Examples.both_page)
         (lit "https://www.rbi.org.in/x") Examples.fresh)
  = Returned (lit "Release text").
Proof.
  apply (proj1 (@extraction_priority
                  (Examples.with_page
                     (Examples.make_env [] Examples.page_ok
                        Examples.summary_ok)
                     Examples.both_page)
                  (lit "https://www.rbi.org.in/x") Examples.fresh
                  (Examples.ok_response (lit "<html/>"))
                  Examples.both_page
                  eq_refl eq_refl eq_refl) Examples.release_span).
  reflexivity.
Defined.

(** C5 as the specification states it fails: on a page with only the
    fallback container, whose one long paragraph sits in a table cell,
    the result is that paragraph, which is no child of the container;
    the paragraph children longer than the threshold are none. *)
Lemma nested_paragraph_is_extracted :
  let result :=
    fst (fetch_full_text
           (Examples.with_page
              (Examples.make_env [] Examples.page_ok Examples.summary_ok)
              Examples.nested_page)
           (lit "https://www.rbi.org.in/x") Examples.fresh) in
  result = Returned (lit "The Reserve Bank of India today announced.") /\
  paragraph_children_text
    (Examples.panel
       [bs4.Tag (lit "table") []
          [bs4.Tag (lit "tr") []
             [bs4.Tag (lit "td") []
                [Examples.paragraph
                   "The Reserve Bank of India today announced."]]];
        Examples.paragraph "Ends"]) = [] /\
  result <> Returned
              (paragraph_children_text
                 (Examples.panel
                    [bs4.Tag (lit "table") []
                       [bs4.Tag (lit "tr") []
                          [bs4.Tag (lit "td") []
                             [Examples.paragraph
                                "The Reserve Bank of India today announced."]]];
                     Examples.paragraph "Ends"])).
Proof. repeat split; vm_compute; discriminate. Qed.

(** ** Wrapping

    The remaining properties are about [textwrap.wrap]; the lemmas
    below name every argument. *)

Unset Implicit Arguments.
Import textwrap.

Lemma last_char_app (p : option char) (a b : str) :
  last_char p (a ++ b) = last_char (last_char p a) b.
Proof.
  unfold last_char; rewrite rev_app_distr.
  destruct (rev b); simpl; reflexivity.
Qed.

Lemma last_char_nonempty (p p' : option char) (s : str) :
  s <> [] -> last_char p s = last_char p' s.
Proof.
  unfold last_char; intros H.
  destruct (rev s) eqn:E; [|reflexivity].
  apply (f_equal (@rev char)) in E; rewrite rev_involutive in E.
  contradiction.
Qed.

Lemma whitespace_isspace (c : char) :
  _whitespace c = true -> isspace c = true.
Proof.
  unfold _whitespace, isspace; intros H.
  apply orb_true_iff in H; destruct H as [H|H].
  - rewrite H; reflexivity.
  - apply N.eqb_eq in H; subst c; reflexivity.
Qed.

Lemma whitespace_not_hyphen (c : char) :
  _whitespace c = true -> is_hyphen c = false.
Proof.
  unfold is_hyphen; intros H.
  destruct (N.eqb_spec c HYPHEN) as [->|]; [discriminate H | reflexivity].
Qed.

Lemma whitespace_blank (s : str) :
  forallb _whitespace s = true -> blank s = true.
Proof.
  unfold blank; induction s as [|c s IH]; simpl; [reflexivity|].
  intros H; apply andb_true_iff in H; destruct H as [Hc Hs].
  rewrite (whitespace_isspace _ Hc), IH; auto.
Qed.

Lemma blank_app (a b : str) : blank (a ++ b) = blank a && blank b.
Proof. apply forallb_app. Qed.

Lemma rfind_hyphen_whitespace (i stop : nat) (chunk : str) :
  forallb _whitespace chunk = true -> rfind_hyphen_from i stop chunk = None.
Proof.
  revert i chunk; induction stop as [|stop IH]; intros i [|c chunk] H;
    simpl in *; try reflexivity.
  apply andb_true_iff in H; destruct H as [Hc Hs].
  rewrite (IH _ _ Hs), (whitespace_not_hyphen _ Hc); reflexivity.
Qed.

Lemma fill_line_spec (width n : nat) (chunks cur_line rest : list str) :
  fill_line width n chunks = (cur_line, rest) ->
  chunks = cur_line ++ rest /\
  (n <= width -> n + length (concat cur_line) <= width) /\
  match rest with
  | [] => True
  | c :: _ => width < n + length (concat cur_line) + length c
  end.
Proof.
  revert n cur_line rest; induction chunks as [|c below IH];
    intros n cur_line rest; simpl.
  - intros H; injection H as <- <-; simpl; repeat split; lia.
  - destruct (n + length c <=? width) eqn:E.
    + destruct (fill_line width (n + length c) below) as [line' rest'] eqn:F.
      intros H; injection H as <- <-.
      destruct (IH _ _ _ F) as [-> [Hlen Hrest]].
      apply Nat.leb_le in E.
      simpl; rewrite length_app; repeat split.
      * intros _; specialize (Hlen E); lia.
      * destruct rest'; [exact I | lia].
    + intros H; injection H as <- <-.
      apply Nat.leb_gt in E; simpl; repeat split; lia.
Qed.

Lemma chunks_ok_app (width : nat) (p : option char) (a b : list str) :
  chunks_ok width p (a ++ b) <->
  chunks_ok width p a /\ chunks_ok width (last_char p (concat a)) b.
Proof.
  revert p; induction a as [|c a IH]; intros p; simpl.
  - unfold last_char; simpl; tauto.
  - rewrite IH, last_char_app; tauto.
Qed.

Lemma chunks_ok_cut (width : nat) (p : option char) (chunks : list str) :
  chunks_ok width p chunks -> cut_before p (concat chunks).
Proof.
  destruct chunks as [|c below]; simpl.
  - intros _; destruct p; exact I.
  - intros [Hne [_ [Hcut _]]].
    destruct c as [|x c]; [contradiction | exact Hcut].
Qed.

Lemma chunks_ok_concat_nil (width : nat) (p : option char)
    (chunks : list str) :
  chunks_ok width p chunks -> concat chunks = [] -> chunks = [].
Proof.
  destruct chunks as [|c below]; simpl; [reflexivity|].
  intros [Hne _] H; destruct c; [contradiction | discriminate].
Qed.

Lemma drop_trailing_blank_spec (cur_line : list str) :
  exists g2 dropped,
    cur_line = drop_trailing_blank cur_line ++ dropped /\
    concat dropped = g2 /\ blank g2 = true.
Proof.
  unfold drop_trailing_blank.
  destruct cur_line as [|c cs] using rev_ind.
  - exists [], []; simpl; auto.
  - rewrite rev_app_distr; simpl.
    destruct (blank c) eqn:E.
    + rewrite removelast_last; exists c, [c]; simpl.
      rewrite app_nil_r; auto.
    + exists [], []; rewrite app_nil_r; auto.
Qed.

Lemma measure_cons (c : str) (chunks : list str) :
  measure (c :: chunks) = length c + measure chunks + 1.
Proof. unfold measure; simpl; rewrite length_app; lia. Qed.

Lemma measure_app (a b : list str) :
  measure (a ++ b) = measure a + measure b.
Proof.
  unfold measure; rewrite concat_app, !length_app; lia.
Qed.

Lemma measure_pos (c : str) (chunks : list str) : 0 < measure (c :: chunks).
Proof. rewrite measure_cons; lia. Qed.

Lemma drop_trailing_blank_app (cur_line : list str) (x : str) :
  blank x = true -> drop_trailing_blank (cur_line ++ [x]) = cur_line.
Proof.
  intros H; unfold drop_trailing_blank.
  rewrite rev_app_distr; simpl; rewrite H; apply removelast_last.
Qed.

Lemma line_of_chunks (width : nat) (p : option char) (chunks : list str) :
  chunks_ok width p chunks ->
  match chunks with [] => None | _ => Some (concat chunks) end
  = match concat chunks with [] => None | _ => Some (concat chunks) end.
Proof.
  destruct chunks as [|c below]; simpl; [reflexivity|].
  intros [Hne _]; destruct c; [contradiction | reflexivity].
Qed.

Lemma firstn_whitespace (k : nat) (c : str) :
  forallb _whitespace c = true -> forallb _whitespace (firstn k c) = true.
Proof.
  revert c; induction k as [|k IH]; intros [|x c]; simpl; auto.
  intros H; apply andb_true_iff in H; destruct H as [-> H]; simpl; auto.
Qed.

Lemma skipn_whitespace (k : nat) (c : str) :
  forallb _whitespace c = true -> forallb _whitespace (skipn k c) = true.
Proof.
  revert c; induction k as [|k IH]; intros [|x c]; simpl; auto.
  intros H; apply andb_true_iff in H; destruct H as [_ H]; auto.
Qed.

Lemma cut_before_whitespace (p : option char) (s : str) :
  forallb _whitespace s = true -> cut_before p s.
Proof.
  destruct p as [a|], s as [|c s]; simpl; auto.
  intros H; apply andb_true_iff in H; destruct H as [Hc _].
  unfold cut_ok; rewrite Hc, orb_true_r; reflexivity.
Qed.

Lemma wrap_line_spec (width : nat) (started : bool) (q : option char)
    (c0 : str) (below chunks' : list str) (line : option str) :
  1 <= width ->
  chunks_ok width q (c0 :: below) ->
  wrap_line width started (c0 :: below) = (chunks', line) ->
  exists g1 l g2,
    concat (c0 :: below) = g1 ++ l ++ g2 ++ concat chunks' /\
    blank g1 = true /\ blank g2 = true /\
    line = match l with [] => None | _ => Some l end /\
    (g1 = [] -> cut_before q l) /\
    chunks_ok width (last_char q (g1 ++ l ++ g2)) chunks' /\
    measure chunks' < measure (c0 :: below).
Proof.
  intros Hw Hok; unfold wrap_line.
  set (chunks1 := if blank c0 && started then below else c0 :: below).
  assert (Ha : exists g1,
             concat (c0 :: below) = g1 ++ concat chunks1 /\
             blank g1 = true /\
             chunks_ok width (last_char q g1) chunks1 /\
             (chunks1 = c0 :: below /\ g1 = [] \/
              measure chunks1 < measure (c0 :: below))).
  { unfold chunks1; destruct (blank c0 && started) eqn:D.
    - exists c0; apply andb_true_iff in D; destruct D as [D _].
      destruct Hok as (Hne & _ & _ & Hbelow).
      repeat split; auto. right; rewrite measure_cons; lia.
    - exists []; split; [reflexivity|]; split; [reflexivity|].
      split; [exact Hok|]; left; split; reflexivity. }
  destruct Ha as (g1 & Hcat1 & Hg1 & Hok1 & Hm1).
  clearbody chunks1.
  destruct (fill_line width 0 chunks1) as [cur_line chunks2] eqn:F.
  destruct (fill_line_spec _ _ _ _ _ F) as (Hsplit & Hlen & Hrest).
  specialize (Hlen (Nat.le_0_l _)); simpl in Hlen, Hrest.
  rewrite Hsplit in Hok1; apply chunks_ok_app in Hok1.
  destruct Hok1 as [Hcur Hok2].
  assert (Hcut : g1 = [] -> cut_before q (concat cur_line)).
  { intros ->; exact (chunks_ok_cut _ _ _ Hcur). }
  destruct chunks2 as [|c below2].
  - (* the stack is empty *)
    destruct (drop_trailing_blank_spec cur_line) as (g2 & dropped & Hd & Hg2c & Hg2).
    set (cur_line2 := drop_trailing_blank cur_line) in *.
    intros H.
    assert (H' : (chunks', line)
                 = ([], match cur_line2 with
                        | [] => None
                        | _ => Some (concat cur_line2)
                        end)).
    { rewrite <- H; destruct cur_line2; reflexivity. }
    clear H; injection H' as -> ->.
    rewrite Hd in Hcur; apply chunks_ok_app in Hcur; destruct Hcur as [Hc2 _].
    exists g1, (concat cur_line2), g2.
    assert (Hcc : concat cur_line = concat cur_line2 ++ g2).
    { rewrite Hd at 1; rewrite concat_app, Hg2c; reflexivity. }
    repeat split; auto.
    + rewrite Hcat1, Hsplit, app_nil_r, Hcc; simpl.
      rewrite app_nil_r; reflexivity.
    + apply (line_of_chunks _ _ _ Hc2).
    + intros ->; exact (chunks_ok_cut _ _ _ Hc2).
    + change (measure []) with 0.
      destruct Hm1 as [[_ _]|Hm1]; [apply measure_pos | lia].
  - destruct (width <? length c) eqn:Elong.
    + (* the next chunk fits on no line: it is whitespace, and is cut *)
      apply Nat.ltb_lt in Elong.
      destruct Hok2 as (Hne & Hkind & Hcutc & Hbelow2).
      destruct Hkind as [Hkind|Hws]; [lia|].
      unfold _handle_long_word.
      replace (width <? 1) with false by (symmetry; apply Nat.ltb_ge; lia).
      set (k := width - length (concat cur_line)).
      replace (k <? length c) with true
        by (symmetry; apply Nat.ltb_lt; unfold k; lia).
      unfold rfind_hyphen; rewrite (rfind_hyphen_whitespace _ _ _ Hws).
      assert (Hpiece : blank (firstn k c) = true)
        by (apply whitespace_blank, firstn_whitespace; exact Hws).
      rewrite (drop_trailing_blank_app _ _ Hpiece).
      intros H.
      assert (H' : (chunks', line)
                   = (skipn k c :: below2,
                      match cur_line with
                      | [] => None
                      | _ => Some (concat cur_line)
                      end)).
      { rewrite <- H; destruct cur_line; reflexivity. }
      clear H; injection H' as -> ->.
      exists g1, (concat cur_line), (firstn k c).
      assert (Hrest' : skipn k c <> []).
      { intros E; apply (f_equal (@length char)) in E.
        rewrite length_skipn in E; simpl in E; unfold k in E; lia. }
      repeat split; auto.
      * rewrite Hcat1, Hsplit, concat_app; simpl.
        rewrite (app_assoc (firstn k c)), firstn_skipn; reflexivity.
      * apply (line_of_chunks _ _ _ Hcur).
      * right; apply skipn_whitespace; exact Hws.
      * apply cut_before_whitespace, skipn_whitespace; exact Hws.
      * rewrite (last_char_nonempty _ (last_char (last_char q g1)
                                         (concat cur_line)) _ Hrest').
        assert (E : last_char (last_char (last_char q g1) (concat cur_line))
                      (skipn k c)
                    = last_char (last_char (last_char q g1)
                                   (concat cur_line)) c).
        { rewrite <- (firstn_skipn k c) at 2.
          rewrite last_char_app; apply last_char_nonempty; exact Hrest'. }
        rewrite E; exact Hbelow2.
      * assert (Hm : measure (skipn k c :: below2) < measure chunks1).
        { rewrite Hsplit, measure_app, !measure_cons, length_skipn.
          destruct cur_line as [|x xs]; [|pose proof (measure_pos x xs); lia].
          unfold measure; simpl; unfold k; simpl; lia. }
        destruct Hm1 as [[-> _]|Hm1]; lia.
    + (* the next chunk goes to the next line *)
      apply Nat.ltb_ge in Elong.
      destruct (drop_trailing_blank_spec cur_line)
        as (g2 & dropped & Hd & Hg2c & Hg2).
      set (cur_line2 := drop_trailing_blank cur_line) in *.
      intros H.
      assert (H' : (chunks', line)
                   = (c :: below2,
                      match cur_line2 with
                      | [] => None
                      | _ => Some (concat cur_line2)
                      end)).
      { rewrite <- H; destruct cur_line2; reflexivity. }
      clear H; injection H' as -> ->.
      assert (Hc2 : chunks_ok width (last_char q g1) cur_line2).
      { rewrite Hd in Hcur; apply chunks_ok_app in Hcur; tauto. }
      assert (Hcc : concat cur_line = concat cur_line2 ++ g2).
      { rewrite Hd at 1; rewrite concat_app, Hg2c; reflexivity. }
      assert (Hfinal : chunks_ok width
                         (last_char q (g1 ++ concat cur_line2 ++ g2))
                         (c :: below2))
        by (rewrite <- Hcc, last_char_app; exact Hok2).
      exists g1, (concat cur_line2), g2.
      repeat split; auto; try apply Hfinal.
      * rewrite Hcat1, Hsplit, concat_app, Hcc, <- !app_assoc; reflexivity.
      * apply (line_of_chunks _ _ _ Hc2).
      * intros ->; exact (chunks_ok_cut _ _ _ Hc2).
      * assert (Hm : measure (c :: below2) < measure chunks1).
        { rewrite Hsplit, measure_app.
          destruct cur_line as [|x xs]; [simpl in Hrest; lia|].
          pose proof (measure_pos x xs); lia. }
        destruct Hm1 as [[-> _]|Hm1]; lia.
Qed.

Lemma wrap_from_wrapped (width : nat) :
  1 <= width ->
  forall (fuel : nat) (started : bool) (chunks : list str)
         (p q : option char) (gap : str),
    chunks_ok width q chunks ->
    blank gap = true ->
    (gap = [] -> q = p) ->
    measure chunks <= fuel ->
    wrapped p (gap ++ concat chunks) (wrap_from fuel width started chunks).
Proof.
  intros Hw; induction fuel as [|fuel IH];
    intros started [|c0 below] p q gap Hok Hgap Hq Hfuel;
    try (simpl; rewrite app_nil_r; apply wrapped_end; exact Hgap).
  - pose proof (measure_pos c0 below); lia.
  - simpl wrap_from.
    destruct (wrap_line width started (c0 :: below)) as [chunks' line] eqn:E.
    destruct (wrap_line_spec _ _ _ _ _ _ _ Hw Hok E)
      as (g1 & l & g2 & Hcat & Hg1 & Hg2 & Hline & Hcut & Hok' & Hm).
    rewrite Hcat; subst line; destruct l as [|x l].
    + (* no line: the gap grows *)
      simpl app at 2.
      replace (gap ++ g1 ++ g2 ++ concat chunks')
        with ((gap ++ g1 ++ g2) ++ concat chunks')
        by (rewrite <- !app_assoc; reflexivity).
      apply IH with (q := last_char q (g1 ++ [] ++ g2)); auto.
      * rewrite !blank_app, Hgap, Hg1, Hg2; reflexivity.
      * intros H; apply app_eq_nil in H; destruct H as [-> H].
        apply app_eq_nil in H; destruct H as [-> ->]; simpl; auto.
      * lia.
    + replace (gap ++ g1 ++ (x :: l) ++ g2 ++ concat chunks')
        with ((gap ++ g1) ++ (x :: l) ++ (g2 ++ concat chunks'))
        by (rewrite <- !app_assoc; reflexivity).
      apply wrapped_line.
      * rewrite blank_app, Hgap, Hg1; reflexivity.
      * discriminate.
      * intros H; apply app_eq_nil in H; destruct H as [-> ->].
        rewrite <- (Hq eq_refl); auto.
      * apply IH with (q := last_char q (g1 ++ (x :: l) ++ g2)); auto.
        -- intros ->; rewrite app_nil_r, last_char_app.
           apply last_char_nonempty; discriminate.
        -- lia.
Qed.

Lemma wrap_loop_from (fuel width : nat) (lines chunks : list str) :
  wrap_loop fuel width lines chunks
  = lines ++ wrap_from fuel width
               (match lines with [] => false | _ => true end) chunks.
Proof.
  revert lines chunks; induction fuel as [|fuel IH]; intros lines chunks;
    simpl; [rewrite app_nil_r; reflexivity|].
  destruct chunks as [|c0 below]; [rewrite app_nil_r; reflexivity|].
  destruct (wrap_line width _ (c0 :: below)) as [chunks' [l|]].
  - rewrite IH, <- app_assoc; simpl.
    destruct lines; reflexivity.
  - apply IH.
Qed.

Lemma wrap_chunks_from (width : nat) (chunks : list str) :
  _wrap_chunks width chunks
  = wrap_from (measure chunks) width false chunks.
Proof. unfold _wrap_chunks; rewrite wrap_loop_from; reflexivity. Qed.

(** Lines are never longer than the width. *)

Lemma rfind_hyphen_lt (i stop : nat) (chunk : str) (j : nat) :
  rfind_hyphen_from i stop chunk = Some j -> j < i + stop.
Proof.
  revert i chunk; induction stop as [|stop IH]; intros i [|c chunk];
    simpl; try discriminate.
  destruct (rfind_hyphen_from (S i) stop chunk) eqn:E.
  - intros H; injection H as ->; apply IH in E; lia.
  - destruct (is_hyphen c); [|discriminate].
    intros H; injection H as ->; lia.
Qed.

Lemma drop_trailing_blank_length (cur_line : list str) :
  length (concat (drop_trailing_blank cur_line)) <= length (concat cur_line).
Proof.
  destruct (drop_trailing_blank_spec cur_line) as (g2 & dropped & Hd & _ & _).
  rewrite Hd at 2; rewrite concat_app, length_app; lia.
Qed.

Lemma wrap_line_length (width : nat) (started : bool)
    (chunks chunks' : list str) (l : str) :
  1 <= width ->
  wrap_line width started chunks = (chunks', Some l) ->
  length l <= width.
Proof.
  intros Hw; unfold wrap_line.
  destruct (fill_line width 0 _) as [cur_line chunks2] eqn:F.
  destruct (fill_line_spec _ _ _ _ _ F) as (_ & Hlen & _).
  specialize (Hlen (Nat.le_0_l _)); simpl in Hlen.
  match goal with
  | |- (let (chunks3, cur_line1) := ?X in _) = _ -> _ =>
      assert (Hcl : length (concat (snd X)) <= width);
      [|destruct X as [chunks3 cur_line1]; simpl in Hcl]
  end.
  { destruct chunks2 as [|c below2]; [exact Hlen|].
    destruct (width <? length c); [|exact Hlen].
    unfold _handle_long_word.
    replace (width <? 1) with false by (symmetry; apply Nat.ltb_ge; lia).
    set (k := width - length (concat cur_line)).
    match goal with
    | |- length (concat (snd (_, cur_line ++ [firstn ?e c]))) <= _ =>
        assert (He : e <= k)
    end.
    { destruct (k <? length c); [|lia].
      unfold rfind_hyphen; destruct (rfind_hyphen_from 0 k c) eqn:R; [|lia].
      apply rfind_hyphen_lt in R.
      destruct (_ && _); lia. }
    simpl; rewrite concat_app, length_app; simpl.
    rewrite app_nil_r, length_firstn; unfold k in *; lia. }
  pose proof (drop_trailing_blank_length cur_line1) as Hd.
  destruct (drop_trailing_blank cur_line1); intros H; [discriminate|].
  injection H as _ <-. change (s ++ concat l0) with (concat (s :: l0)). lia.
Qed.

Lemma wrap_from_lengths (width : nat) :
  1 <= width ->
  forall fuel started chunks,
    Forall (fun l => length l <= width) (wrap_from fuel width started chunks).
Proof.
  intros Hw; induction fuel as [|fuel IH]; intros started chunks; simpl;
    [constructor|].
  destruct chunks as [|c0 below]; [constructor|].
  destruct (wrap_line width started (c0 :: below)) as [chunks' [l|]] eqn:E.
  - constructor; [exact (wrap_line_length _ _ _ _ _ Hw E) | apply IH].
  - apply IH.
Qed.

(** ** Texts of whitespace only *)

Lemma repeat_space_whitespace (n : nat) :
  forallb _whitespace (repeat SPACE n) = true.
Proof. induction n as [|n IH]; simpl; auto. Qed.

Lemma expandtabs_from_whitespace (tabsize : nat) (s : str) :
  forall column,
    forallb _whitespace s = true ->
    forallb _whitespace (expandtabs_from tabsize column s) = true.
Proof.
  induction s as [|c s IH]; intros column H; simpl in *; [reflexivity|].
  apply andb_true_iff in H; destruct H as [Hc Hs].
  destruct (N.eqb c TAB).
  - destruct (0 <? tabsize); [|apply IH; exact Hs].
    rewrite forallb_app, repeat_space_whitespace; simpl; apply IH; exact Hs.
  - simpl; rewrite Hc; simpl; apply IH; exact Hs.
Qed.

Lemma ws_run_whitespace (s : str) :
  forallb _whitespace s = true -> ws_run s = length s.
Proof.
  induction s as [|c s IH]; simpl; [reflexivity|].
  intros H; apply andb_true_iff in H; destruct H as [-> Hs].
  rewrite (IH Hs); reflexivity.
Qed.

Lemma split_from_nil (U : Unicode) (fuel : nat) (prev : str) :
  split_from U fuel prev [] = [].
Proof. destruct fuel; reflexivity. Qed.

Lemma split_whitespace (U : Unicode) (s : str) :
  forallb _whitespace s = true ->
  _split U s = match s with [] => [] | _ => [s] end.
Proof.
  destruct s as [|c s]; [reflexivity|]; intros H.
  unfold _split; simpl length; unfold split_from; fold (split_from U).
  assert (Hn : match_len U [] c s = length (c :: s)).
  { unfold match_len. pose proof H as H'. simpl in H'.
    apply andb_true_iff in H'; destruct H' as [-> _].
    apply ws_run_whitespace; exact H. }
  rewrite Hn, firstn_all, skipn_all, split_from_nil; reflexivity.
Qed.

Lemma wrap_line_whitespace (width : nat) (t : str) :
  1 <= width ->
  forallb _whitespace t = true ->
  wrap_line width false [t]
  = ((if length t <=? width then [] else [skipn width t]), None).
Proof.
  intros Hw Ht; unfold wrap_line.
  rewrite andb_false_r; simpl fill_line.
  destruct (length t <=? width) eqn:E.
  - unfold drop_trailing_blank; simpl.
    rewrite (whitespace_blank _ Ht); reflexivity.
  - apply Nat.leb_gt in E.
    assert (E1 : (width <? length t) = true) by (apply Nat.ltb_lt; exact E).
    rewrite E1; unfold _handle_long_word.
    assert (E2 : (width <? 1) = false) by (apply Nat.ltb_ge; exact Hw).
    rewrite E2; simpl concat; simpl length; rewrite Nat.sub_0_r, E1.
    unfold rfind_hyphen; rewrite (rfind_hyphen_whitespace _ _ _ Ht).
    unfold drop_trailing_blank; simpl.
    rewrite (whitespace_blank _ (firstn_whitespace _ _ Ht)); reflexivity.
Qed.

Lemma wrap_from_whitespace (width : nat) :
  1 <= width ->
  forall fuel (t : str),
    forallb _whitespace t = true ->
    wrap_from fuel width false [t] = [].
Proof.
  intros Hw; induction fuel as [|fuel IH]; intros t Ht; [reflexivity|].
  cbn [wrap_from]; rewrite (wrap_line_whitespace _ _ Hw Ht).
  destruct (length t <=? width); [destruct fuel; reflexivity|].
  apply IH, skipn_whitespace; exact Ht.
Qed.

Lemma wrap_whitespace (U : Unicode) (text : str) (width : nat) :
  1 <= width ->
  forallb _whitespace text = true ->
  wrap U text width = [].
Proof.
  intros Hw Ht; unfold wrap; rewrite wrap_chunks_from.
  pose proof (expandtabs_from_whitespace 8 text 0 Ht) as Hm.
  fold (expandtabs 8 text) in Hm; fold (_munge_whitespace text) in Hm.
  rewrite (split_whitespace U _ Hm).
  destruct (_munge_whitespace text) as [|c s] eqn:E; [reflexivity|].
  apply wrap_from_whitespace; assumption.
Qed.

(** ** The chunks of [_split] *)

Lemma words_head (s : str) :
  match s with
  | d :: _ =>
      _whitespace d = false ->
      exists w ws, words s = w :: ws /\ length w = nws_run s
  | [] => True
  end.
Proof.
  induction s as [|c s IH]; [exact I|].
  intros Hc; simpl; rewrite Hc.
  destruct s as [|d s']; [exists [c], []; split; reflexivity|].
  destruct (_whitespace d) eqn:Hd.
  - exists [c], (words (d :: s')); split; [reflexivity|].
    simpl; rewrite Hd; reflexivity.
  - destruct (IH eq_refl) as [w [ws [E L]]].
    rewrite E; exists (c :: w), ws; split; [reflexivity|].
    simpl; rewrite L; simpl; rewrite Hd; reflexivity.
Qed.

Lemma words_tail (W : nat) (c : char) (s : str) :
  Forall (fun w => length w <= W) (words (c :: s)) ->
  Forall (fun w => length w <= W) (words s).
Proof.
  simpl; destruct (_whitespace c); [auto|].
  destruct s as [|d s']; [intros _; constructor|].
  destruct (_whitespace d) eqn:Hd.
  - intros H; inversion H; assumption.
  - destruct (words_head (d :: s') Hd) as [w [ws [E _]]].
    rewrite E; intros H; inversion H as [|x l Hx Hl]; subst.
    constructor; [simpl in Hx; lia | exact Hl].
Qed.

Lemma words_skipn (W n : nat) (s : str) :
  Forall (fun w => length w <= W) (words s) ->
  Forall (fun w => length w <= W) (words (skipn n s)).
Proof.
  revert s; induction n as [|n IH]; intros [|c s] H; simpl; auto.
  apply IH, (words_tail _ _ _ H).
Qed.

Lemma words_nws_run (W : nat) (s : str) :
  Forall (fun w => length w <= W) (words s) -> nws_run s <= W.
Proof.
  destruct s as [|c s]; [simpl; lia|].
  destruct (_whitespace c) eqn:Hc; [simpl; rewrite Hc; lia|].
  destruct (words_head (c :: s) Hc) as [w [ws [E L]]].
  rewrite E; intros H; inversion H; subst; lia.
Qed.

Lemma nws_run_length (s : str) : nws_run s <= length s.
Proof.
  induction s as [|c s IH]; simpl; [lia|].
  destruct (_whitespace c); lia.
Qed.

Lemma hyphen_not_whitespace (c : char) :
  is_hyphen c = true -> _whitespace c = false.
Proof.
  destruct (_whitespace c) eqn:E; [|reflexivity].
  rewrite (whitespace_not_hyphen _ E); discriminate.
Qed.

Lemma dash_run_hyphens (s : str) :
  forallb is_hyphen (firstn (dash_run s) s) = true.
Proof.
  induction s as [|c s IH]; simpl; [reflexivity|].
  destruct (is_hyphen c) eqn:E; simpl; [rewrite E; exact IH | reflexivity].
Qed.

Lemma dash_run_nws_run (s : str) : dash_run s <= nws_run s.
Proof.
  induction s as [|c s IH]; simpl; [lia|].
  destruct (is_hyphen c) eqn:E; [|lia].
  rewrite (hyphen_not_whitespace _ E); lia.
Qed.

Lemma ws_run_whitespaces (s : str) :
  forallb _whitespace (firstn (ws_run s) s) = true.
Proof.
  induction s as [|c s IH]; simpl; [reflexivity|].
  destruct (_whitespace c) eqn:E; simpl; [rewrite E; exact IH | reflexivity].
Qed.

Lemma ws_run_length (s : str) : ws_run s <= length s.
Proof.
  induction s as [|c s IH]; simpl; [lia|].
  destruct (_whitespace c); simpl; lia.
Qed.

Lemma cut_before_nil (p : option char) : cut_before p [].
Proof. destruct p; exact I. Qed.

Lemma cut_after (P : char -> bool) (chunk prev s : str) :
  (forall a c, P a = true -> cut_ok a c = true) ->
  forallb P chunk = true -> chunk <> [] ->
  cut_before (hd_error (rev chunk ++ prev)) s.
Proof.
  intros HP Hall Hne.
  destruct (rev chunk) as [|a r] eqn:E.
  - apply (f_equal (@rev char)) in E; rewrite rev_involutive in E.
    contradiction.
  - simpl; destruct s as [|c s]; [exact I|].
    apply HP.
    assert (Ha : In a chunk) by (apply in_rev; rewrite E; left; reflexivity).
    exact (proj1 (forallb_forall P chunk) Hall a Ha).
Qed.

Lemma cut_ok_whitespace_left (a c : char) :
  _whitespace a = true -> cut_ok a c = true.
Proof. unfold cut_ok; intros ->; reflexivity. Qed.

Lemma cut_ok_hyphen_left (a c : char) :
  is_hyphen a = true -> cut_ok a c = true.
Proof.
  unfold cut_ok; intros ->.
  rewrite !orb_true_r; reflexivity.
Qed.

Lemma cut_before_hyphen (p : option char) (c : char) (s : str) :
  is_hyphen c = true -> cut_before p (c :: s).
Proof.
  destruct p as [a|]; simpl; [|auto].
  unfold cut_ok; intros ->; rewrite !orb_true_r; reflexivity.
Qed.

Lemma cut_before_space (p : option char) (c : char) (s : str) :
  _whitespace c = true -> cut_before p (c :: s).
Proof.
  intros H; destruct p as [a|]; [|exact I].
  change (cut_ok a c = true); unfold cut_ok.
  rewrite H, orb_true_r; reflexivity.
Qed.

Lemma em_dash_spec (U : Unicode) (prev rest : str) (n : nat) :
  em_dash U prev rest = Some n ->
  n = dash_run rest /\ 2 <= n.
Proof.
  unfold em_dash; destruct prev as [|p prev]; [discriminate|].
  destruct (word_punct U p); [|discriminate].
  destruct (2 <=? dash_run rest) eqn:E; [|discriminate].
  destruct (skipn (dash_run rest) rest) as [|c r]; [discriminate|].
  destruct (re_word U c); [|discriminate].
  intros H; injection H as <-; split; [reflexivity|].
  apply Nat.leb_le; exact E.
Qed.

Lemma dash_run_head (rest : str) :
  1 <= dash_run rest ->
  exists c r, rest = c :: r /\ is_hyphen c = true.
Proof.
  destruct rest as [|c r]; simpl; [lia|].
  destruct (is_hyphen c) eqn:E; [|lia].
  intros _; exists c, r; split; [reflexivity | exact E].
Qed.

Lemma hyphen_break_head (U : Unicode) (prev rest : str) :
  hyphen_break U prev rest = true ->
  exists h after, rest = h :: after /\ is_hyphen h = true.
Proof.
  unfold hyphen_break; destruct rest as [|h after]; [discriminate|].
  intros H; apply andb_true_iff in H; destruct H as [H _].
  apply andb_true_iff in H; destruct H as [H _].
  exists h, after; split; [reflexivity | exact H].
Qed.

Lemma scan_word_eq (U : Unicode) (prev rest : str) :
  scan_word U prev rest =
  if hyphen_break U prev rest then 1
  else if end_of_word rest then 0
  else match em_dash U prev rest, rest with
       | Some _, _ => 0
       | None, c :: rest' => S (scan_word U (c :: prev) rest')
       | None, [] => 0
       end.
Proof. destruct rest; reflexivity. Qed.

Lemma scan_word_spec (U : Unicode) (rest : str) :
  forall prev,
    scan_word U prev rest <= nws_run rest /\
    cut_before (hd_error (rev (firstn (scan_word U prev rest) rest) ++ prev))
               (skipn (scan_word U prev rest) rest).
Proof.
  induction rest as [|c rest' IH]; intros prev; rewrite scan_word_eq.
  - simpl; split; [lia | apply cut_before_nil].
  - destruct (hyphen_break U prev (c :: rest')) eqn:Hh.
    { destruct (hyphen_break_head _ _ _ Hh) as [h [after [E Hy]]].
      injection E as <- <-.
      split.
      - simpl; rewrite (hyphen_not_whitespace _ Hy); lia.
      - simpl; destruct rest' as [|a r]; [exact I|].
        apply cut_ok_hyphen_left; exact Hy. }
    destruct (end_of_word (c :: rest')) eqn:He.
    { simpl in He; split; [lia|].
      apply cut_before_space; exact He. }
    destruct (em_dash U prev (c :: rest')) as [n|] eqn:Em.
    { destruct (em_dash_spec _ _ _ _ Em) as [-> Hn].
      destruct (dash_run_head (c :: rest')) as [c' [r [E Hy]]]; [lia|].
      injection E as <- <-.
      split; [lia|]; simpl.
      apply cut_before_hyphen; exact Hy. }
    simpl in He; destruct (IH (c :: prev)) as [Hle Hcut]; split.
    + simpl; rewrite He; lia.
    + simpl; rewrite <- app_assoc; exact Hcut.
Qed.

Lemma match_len_spec (U : Unicode) (prev : str) (c : char) (rest' : str) :
  let n := match_len U prev c rest' in
  1 <= n /\ n <= length (c :: rest') /\
  (forallb _whitespace (firstn n (c :: rest')) = true \/
   n <= nws_run (c :: rest')) /\
  cut_before (hd_error (rev (firstn n (c :: rest')) ++ prev))
             (skipn n (c :: rest')).
Proof.
  unfold match_len; destruct (_whitespace c) eqn:Hc.
  - assert (H1 : 1 <= ws_run (c :: rest')) by (simpl; rewrite Hc; lia).
    split; [exact H1|]; split; [apply ws_run_length|].
    split; [left; apply ws_run_whitespaces|].
    apply (cut_after _whitespace); [apply cut_ok_whitespace_left | |].
    + apply ws_run_whitespaces.
    + simpl; rewrite Hc; discriminate.
  - destruct (em_dash U prev (c :: rest')) as [n|] eqn:Em.
    + destruct (em_dash_spec _ _ _ _ Em) as [-> Hn].
      pose proof (dash_run_nws_run (c :: rest')) as Hr.
      pose proof (nws_run_length (c :: rest')) as Hl.
      split; [lia|]; split; [lia|]; split; [right; exact Hr|].
      apply (cut_after is_hyphen); [apply cut_ok_hyphen_left | |].
      * apply dash_run_hyphens.
      * destruct (dash_run_head (c :: rest')) as [c' [r [E Hy]]]; [lia|].
        injection E as <- <-.
        simpl; rewrite Hy; discriminate.
    + destruct (scan_word_spec U rest' (c :: prev)) as [Hle Hcut].
      pose proof (nws_run_length rest') as Hl.
      split; [lia|]; split; [simpl; lia|]; split.
      * right; simpl; rewrite Hc; lia.
      * simpl; rewrite <- app_assoc; exact Hcut.
Qed.

Lemma hd_error_rev (prev s : str) :
  hd_error (rev s ++ prev) = last_char (hd_error prev) s.
Proof. unfold last_char; destruct (rev s); reflexivity. Qed.

Lemma cut_before_firstn (p : option char) (n : nat) (s : str) :
  1 <= n -> cut_before p s -> cut_before p (firstn n s).
Proof.
  destruct n as [|n]; [lia|]; intros _.
  destruct s as [|c s]; [intros _; apply cut_before_nil|].
  destruct p; intros H; exact H.
Qed.

Lemma split_from_cons (U : Unicode) (fuel : nat) (prev : str) (c : char)
    (rest' : str) :
  split_from U (S fuel) prev (c :: rest') =
  firstn (match_len U prev c rest') (c :: rest')
  :: split_from U fuel
       (rev (firstn (match_len U prev c rest') (c :: rest')) ++ prev)
       (skipn (match_len U prev c rest') (c :: rest')).
Proof. reflexivity. Qed.

Lemma split_from_ok (U : Unicode) (W : nat) :
  forall fuel prev rest,
    Forall (fun w => length w <= W) (words rest) ->
    cut_before (hd_error prev) rest ->
    chunks_ok W (hd_error prev) (split_from U fuel prev rest).
Proof.
  induction fuel as [|fuel IH]; intros prev rest Hw Hcut; [exact I|].
  destruct rest as [|c rest']; [exact I|].
  rewrite split_from_cons.
  destruct (match_len_spec U prev c rest') as [H1 [H2 [H3 H4]]].
  set (n := match_len U prev c rest') in *.
  split; [|split; [|split]].
  - destruct n; [lia | discriminate].
  - destruct H3 as [H3|H3]; [right; exact H3 | left].
    pose proof (words_nws_run _ _ Hw).
    rewrite length_firstn; lia.
  - apply cut_before_firstn; assumption.
  - rewrite <- hd_error_rev.
    apply IH; [apply words_skipn; exact Hw | exact H4].
Qed.

Lemma split_from_concat (U : Unicode) :
  forall fuel prev rest,
    length rest <= fuel -> concat (split_from U fuel prev rest) = rest.
Proof.
  induction fuel as [|fuel IH]; intros prev rest Hl.
  - destruct rest; [reflexivity | simpl in Hl; lia].
  - destruct rest as [|c rest']; [reflexivity|].
    rewrite split_from_cons.
    destruct (match_len_spec U prev c rest') as [H1 [H2 _]].
    set (n := match_len U prev c rest') in *.
    change (firstn n (c :: rest')
            ++ concat (split_from U fuel (rev (firstn n (c :: rest')) ++ prev)
                         (skipn n (c :: rest'))) = c :: rest').
    rewrite IH; [apply firstn_skipn|].
    rewrite length_skipn; lia.
Qed.

(** ** Tabs *)

Lemma words_spaces (k : nat) (s : str) : words (repeat SPACE k ++ s) = words s.
Proof. induction k as [|k IH]; [reflexivity | exact IH]. Qed.

Lemma words_cons (c : char) (s : str) :
  words (c :: s) =
  if _whitespace c then words s
  else if end_of_word s then [c] :: words s
  else match words s with
       | w :: ws => (c :: w) :: ws
       | [] => [[c]]
       end.
Proof.
  simpl; destruct (_whitespace c); [reflexivity|].
  destruct s as [|d s']; reflexivity.
Qed.

Lemma expandtabs_end_of_word (tabsize : nat) (s : str) (column : nat) :
  0 < tabsize ->
  end_of_word (expandtabs_from tabsize column s) = end_of_word s.
Proof.
  intros Ht; destruct s as [|c s]; [reflexivity|]; simpl.
  destruct (N.eqb_spec c TAB) as [->|Hc]; [|reflexivity].
  assert (E : (0 <? tabsize) = true) by (apply Nat.ltb_lt; exact Ht).
  rewrite E.
  pose proof (Nat.mod_upper_bound column tabsize) as Hm.
  destruct (tabsize - column mod tabsize) as [|k] eqn:Ek; [lia|].
  reflexivity.
Qed.

Lemma expandtabs_words (tabsize : nat) (s : str) :
  0 < tabsize ->
  forall column, words (expandtabs_from tabsize column s) = words s.
Proof.
  intros Ht; induction s as [|c s IH]; intros column; [reflexivity|].
  assert (E : (0 <? tabsize) = true) by (apply Nat.ltb_lt; exact Ht).
  change (expandtabs_from tabsize column (c :: s)) with
    (if N.eqb c TAB then
       if 0 <? tabsize then
         repeat SPACE (tabsize - column mod tabsize)
         ++ expandtabs_from tabsize
              (column + (tabsize - column mod tabsize)) s
       else expandtabs_from tabsize column s
     else c :: expandtabs_from tabsize
                 (if N.eqb c LF || N.eqb c CR then 0 else S column) s).
  destruct (N.eqb_spec c TAB) as [->|Hc].
  - rewrite E, words_spaces, IH; reflexivity.
  - rewrite !words_cons, IH, expandtabs_end_of_word by exact Ht.
    reflexivity.
Qed.

(** ** Characters other than whitespace *)

Lemma nonspace_app (a b : str) : nonspace (a ++ b) = nonspace a ++ nonspace b.
Proof. apply filter_app. Qed.

Lemma nonspace_blank (s : str) : blank s = true -> nonspace s = [].
Proof.
  unfold blank, nonspace; induction s as [|c s IH]; simpl; [reflexivity|].
  intros H; apply andb_true_iff in H; destruct H as [-> Hs].
  simpl; apply IH; exact Hs.
Qed.

Lemma nonspace_spaces (k : nat) : nonspace (repeat SPACE k) = [].
Proof. induction k as [|k IH]; [reflexivity | exact IH]. Qed.

Lemma wrapped_nonspace (p : option char) (text : str) (lines : list str) :
  wrapped p text lines -> nonspace (concat lines) = nonspace text.
Proof.
  induction 1 as [p gap Hgap | p gap line rest lines Hgap Hne Hcut Hrest IH].
  - rewrite (nonspace_blank _ Hgap); reflexivity.
  - simpl; rewrite !nonspace_app, (nonspace_blank _ Hgap), IH; reflexivity.
Qed.

Lemma expandtabs_nonspace (tabsize : nat) (s : str) :
  forall column, nonspace (expandtabs_from tabsize column s) = nonspace s.
Proof.
  induction s as [|c s IH]; intros column; [reflexivity|].
  change (expandtabs_from tabsize column (c :: s)) with
    (if N.eqb c TAB then
       if 0 <? tabsize then
         repeat SPACE (tabsize - column mod tabsize)
         ++ expandtabs_from tabsize
              (column + (tabsize - column mod tabsize)) s
       else expandtabs_from tabsize column s
     else c :: expandtabs_from tabsize
                 (if N.eqb c LF || N.eqb c CR then 0 else S column) s).
  destruct (N.eqb_spec c TAB) as [->|Hc].
  - change (nonspace (TAB :: s)) with (nonspace s).
    destruct (0 <? tabsize); [|apply IH].
    rewrite nonspace_app, nonspace_spaces; apply IH.
  - unfold nonspace; simpl; fold (nonspace s).
    rewrite <- (IH (if N.eqb c LF || N.eqb c CR then 0 else S column)).
    reflexivity.
Qed.

(** ** The lines of [wrap] *)

Lemma wrap_lengths (U : Unicode) (text : str) (width : nat) :
  1 <= width ->
  Forall (fun line => length line <= width) (wrap U text width).
Proof.
  intros Hw; unfold wrap; rewrite wrap_chunks_from.
  apply wrap_from_lengths; exact Hw.
Qed.

Lemma wrap_wrapped (U : Unicode) (text : str) (width : nat) :
  1 <= width ->
  Forall (fun word => length word <= width) (words text) ->
  wrapped None (_munge_whitespace text) (wrap U text width).
Proof.
  intros Hw Hwords; unfold wrap; rewrite wrap_chunks_from.
  set (m := _munge_whitespace text).
  assert (Hm : Forall (fun word => length word <= width) (words m)).
  { unfold m, _munge_whitespace, expandtabs.
    rewrite expandtabs_words by lia; exact Hwords. }
  assert (Hc : concat (_split U m) = m)
    by (apply split_from_concat; apply Nat.le_refl).
  rewrite <- Hc at 1.
  apply (wrap_from_wrapped width Hw _ false (_split U m) None None []).
  - exact (split_from_ok U width (length m) [] m Hm I).
  - reflexivity.
  - reflexivity.
  - apply Nat.le_refl.
Qed.

Lemma Forall_leb (W : nat) (ws : list str) :
  forallb (fun word => length word <=? W) ws = true ->
  Forall (fun word => length word <= W) ws.
Proof.
  intros H; apply Forall_forall; intros x Hx.
  apply Nat.leb_le; exact (proj1 (forallb_forall _ ws) H x Hx).
Qed.

Lemma send_message_trace (env : Env) (text : str) (w : World) :
  reliable env ->
  trace (snd (send_message env text w))
  = trace w ++ transmissions env (wrap (unicode env) text 4000).
Proof.
  intros [_ Hpost]; unfold send_message.
  generalize (wrap (unicode env) text 4000); intros chunks.
  revert w; induction chunks as [|chunk chunks IH]; intros w; simpl;
    [rewrite app_nil_r; reflexivity|].
  unfold bind at 1 2, post, bind, emit, sleep, emit; simpl.
  match goal with
  | |- context [requests_post env ?h ?u ?d] =>
      destruct (Hpost h u d) as [r ->]
  end.
  simpl; rewrite IH; simpl; rewrite <- !app_assoc; reflexivity.
Qed.

(** ** Sending a message *)

(** C10, for the whitespace of [textwrap]: a text that is empty or made
    only of tab, line feed, vertical tab, form feed, carriage return and
    space is wrapped into no chunk, and sending it does nothing at all:
    no request, no pause, the world unchanged. *)
Theorem blank_text_sends_nothing (env : Env) (text : str) (w : World) :
  forallb textwrap._whitespace text = true ->
  textwrap.wrap (unicode env) text 4000 = [] /\
  send_message env text w = (Returned tt, w).
Proof.
  intros H.
  assert (E : textwrap.wrap (unicode env) text 4000 = [])
    by (apply wrap_whitespace; [lia | exact H]).
  split; [exact E|].
  unfold send_message; rewrite E; reflexivity.
Qed.

Lemma blank_text_sends_nothing_witness :
  textwrap.wrap
    (unicode (Examples.make_env [] Examples.page_ok Examples.summary_ok))
    [SPACE; TAB; LF; SPACE] 4000 = [] /\
  send_message (Examples.make_env [] Examples.page_ok Examples.summary_ok)
    [SPACE; TAB; LF; SPACE] Examples.fresh
  = (Returned tt, Examples.fresh).
Proof.
  apply (blank_text_sends_nothing
           (Examples.make_env [] Examples.page_ok Examples.summary_ok)
           [SPACE; TAB; LF; SPACE] Examples.fresh).
  reflexivity.
Defined.

(** A no-break space followed by a space is whitespace only for
    [str.isspace] and [str.strip], yet it is sent: the no-break space is
    a word for [textwrap], and only the space after it is dropped. *)
Lemma no_break_space_is_sent :
  forallb isspace Examples.nbsp_text = true /\
  strip Examples.nbsp_text = [] /\
  textwrap.wrap Examples.latin1 Examples.nbsp_text 4000 = [[160%N]] /\
  trace (snd (send_message
                (Examples.make_env [] Examples.page_ok Examples.summary_ok)
                Examples.nbsp_text Examples.fresh))
  = transmissions
      (Examples.make_env [] Examples.page_ok Examples.summary_ok) [[160%N]].
Proof. repeat split; vm_compute; reflexivity. Qed.

(** C4, as the code has it.  Two notions of whitespace are at work:
    [textwrap] splits a text at the six characters of
    [textwrap._whitespace] (space, tab, line feed, vertical tab, form
    feed, carriage return), and it drops a chunk when [str.strip] leaves
    nothing of it, that is when the chunk is [blank]: made of characters
    for which [str.isspace] holds.  For every text whose [words] (the
    runs delimited by the six characters) have at most 4000 characters,
    whatever its length, the chunks have at most 4000 characters each;
    the text with its tabs expanded is the chunks in order with [blank]
    text dropped before, between and after them, and where nothing was
    dropped before a chunk, one of the two characters at the cut is one
    of the six characters or a hyphen; the characters of the chunks
    joined for which [str.isspace] does not hold are those of the text;
    and the chunks are transmitted one request each, in that order. *)
Theorem chunking (env : Env) (text : str) (w : World) :
  Forall (fun word => length word <= 4000) (words text) ->
  reliable env ->
  Forall (fun chunk => length chunk <= 4000)
    (textwrap.wrap (unicode env) text 4000) /\
  wrapped None (textwrap._munge_whitespace text)
    (textwrap.wrap (unicode env) text 4000) /\
  nonspace (concat (textwrap.wrap (unicode env) text 4000)) = nonspace text /\
  trace (snd (send_message env text w))
  = trace w ++ transmissions env (textwrap.wrap (unicode env) text 4000).
Proof.
  intros Hwords Hnet.
  assert (Hwr : wrapped None (textwrap._munge_whitespace text)
                  (textwrap.wrap (unicode env) text 4000))
    by (apply wrap_wrapped; [lia | exact Hwords]).
  split; [apply wrap_lengths; lia|].
  split; [exact Hwr|].
  split; [|apply send_message_trace; exact Hnet].
  rewrite (wrapped_nonspace _ _ _ Hwr).
  apply expandtabs_nonspace.
Qed.

Lemma chunking_witness :
  length Examples.long_text = 9 * 1000 /\
  textwrap.wrap
    (unicode (Examples.make_env [] Examples.page_ok Examples.summary_ok))
    Examples.long_text 4000
  = [repeat 120%N 1000 ++ [LF] ++ repeat 121%N 2000;
     repeat 122%N 3000;
     repeat 117%N 2997] /\
  Forall (fun chunk => length chunk <= 4000)
    (textwrap.wrap
       (unicode (Examples.make_env [] Examples.page_ok Examples.summary_ok))
       Examples.long_text 4000) /\
  wrapped None (textwrap._munge_whitespace Examples.long_text)
    (textwrap.wrap
       (unicode (Examples.make_env [] Examples.page_ok Examples.summary_ok))
       Examples.long_text 4000) /\
  nonspace
    (concat
       (textwrap.wrap
          (unicode (Examples.make_env [] Examples.page_ok
                      Examples.summary_ok))
          Examples.long_text 4000))
  = nonspace Examples.long_text /\
  trace (snd (send_message
                (Examples.make_env [] Examples.page_ok Examples.summary_ok)
                Examples.long_text Examples.fresh))
  = trace Examples.fresh
    ++ transmissions
         (Examples.make_env [] Examples.page_ok Examples.summary_ok)
         (textwrap.wrap
            (unicode (Examples.make_env [] Examples.page_ok
                        Examples.summary_ok))
            Examples.long_text 4000).
Proof.
  split; [vm_compute; reflexivity|].
  split; [vm_compute; reflexivity|].
  apply (chunking (Examples.make_env [] Examples.page_ok Examples.summary_ok)
           Examples.long_text Examples.fresh).
  - apply Forall_leb; vm_compute; reflexivity.
  - split; intros; simpl; [destruct (str_eqb url RSS_FEED)|];
      eexists; reflexivity.
Defined.

(** A text of 9000 characters whose words have at most 3990: the word
    hello-world is cut after its hyphen, and no chunk holds it. *)
Lemma hyphenated_word_is_split :
  length Examples.hyphen_text = 9 * 1000 /\
  forallb (fun word => length word <=? 4000) (words Examples.hyphen_text)
  = true /\
  nth 1 (words Examples.hyphen_text) [] = lit "hello-world"%string /\
  textwrap.wrap Examples.latin1 Examples.hyphen_text 4000
  = [repeat 97%N 3990 ++ lit " hello-"%string;
     lit "world "%string ++ repeat 98%N 3000;
     repeat 99%N 1996] /\
  existsb (infixb (lit "hello-world"%string))
    (textwrap.wrap Examples.latin1 Examples.hyphen_text 4000) = false.
Proof. repeat split; vm_compute; reflexivity. Qed.

(** * Further properties of the program *)

(** ** The delta *)

(** What the delta loop returns.  When it returns a list, the new
    entries are the longest prefix of the feed in which no title is the
    watermark: they are a prefix, each of them has a title other than
    the watermark, and the entry after them, if any, has the watermark
    as its title.  When it raises, it raises [AttributeError], at the
    first entry without a title, and every entry before that one has a
    title other than the watermark. *)
Theorem new_entries_of_longest_prefix (last_title : str)
    (entries : list Entry) :
  match new_entries_of last_title entries with
  | inr new_entries =>
      exists rest,
        entries = new_entries ++ rest /\
        Forall (fun e => exists t, title e = Some t /\ t <> last_title)
          new_entries /\
        match rest with
        | stop :: _ => title stop = Some last_title
        | [] => True
        end
  | inl e =>
      e = AttributeError /\
      exists before bad rest,
        entries = before ++ bad :: rest /\
        Forall (fun e => exists t, title e = Some t /\ t <> last_title)
          before /\
        title bad = None
  end.
Proof.
  induction entries as [|e es IH]; simpl.
  - exists []; repeat split; constructor.
  - destruct (title e) as [t|] eqn:Ht; simpl.
    + destruct (str_eqb t last_title) eqn:E.
      * exists (e :: es); repeat split; [constructor|].
        apply str_eqb_eq in E; rewrite Ht, E; reflexivity.
      * assert (Hne : t <> last_title)
          by (intros ->; rewrite str_eqb_refl in E; discriminate).
        destruct (new_entries_of last_title es) as [x|new_entries].
        -- destruct IH as [-> [before [bad [rest [-> [Hall Hbad]]]]]].
           split; [reflexivity|].
           exists (e :: before), bad, rest; repeat split; [|exact Hbad].
           constructor; [exists t; split; assumption | exact Hall].
        -- destruct IH as [rest [Hcat [Hall Hstop]]].
           exists rest; repeat split;
             [simpl; f_equal; exact Hcat | | exact Hstop].
           constructor; [exists t; split; assumption | exact Hall].
    + split; [reflexivity|].
      exists [], e, es; repeat split; [constructor | exact Ht].
Qed.

(** Every entry of the feed is new exactly when every entry has a title
    and none has the watermark as its title: a watermark that is no
    longer in the feed makes the whole feed new. *)
Theorem new_entries_of_whole_feed (last_title : str) (entries : list Entry) :
  new_entries_of last_title entries = inr entries <->
  Forall (fun e => exists t, title e = Some t /\ t <> last_title) entries.
Proof.
  split; [|apply new_entries_of_all].
  intros H; apply (new_entries_of_titles last_title entries H).
Qed.

Lemma new_entries_of_none (last_title : str) (entries : list Entry) :
  new_entries_of last_title entries = inr [] <->
  match entries with
  | [] => True
  | newest :: _ => title newest = Some last_title
  end.
Proof.
  destruct entries as [|e es]; simpl; [tauto|].
  destruct (title e) as [t|]; simpl; [|split; discriminate].
  destruct (str_eqb t last_title) eqn:E.
  - apply str_eqb_eq in E; subst t; tauto.
  - split.
    + destruct (new_entries_of last_title es); discriminate.
    + intros H; injection H as ->; rewrite str_eqb_refl in E; discriminate.
Qed.

(** ** Stripped strings *)

Lemma lstrip_head (s : str) :
  match lstrip s with [] => True | c :: _ => isspace c = false end.
Proof.
  induction s as [|c s IH]; simpl; [exact I|].
  destruct (isspace c) eqn:E; [exact IH | exact E].
Qed.

Lemma lstrip_snoc (a : str) (c : char) :
  isspace c = false -> lstrip (a ++ [c]) = lstrip a ++ [c].
Proof.
  intros Hc; induction a as [|x a IH]; simpl; [rewrite Hc; reflexivity|].
  destruct (isspace x); [exact IH | reflexivity].
Qed.

Lemma rstrip_cons (c : char) (s : str) :
  isspace c = false -> rstrip (c :: s) = c :: rstrip s.
Proof.
  intros Hc; unfold rstrip; simpl.
  rewrite (lstrip_snoc _ _ Hc), rev_app_distr; reflexivity.
Qed.

Lemma strip_no_surrounding_whitespace (s : str) :
  no_surrounding_whitespace (strip s).
Proof.
  unfold strip, no_surrounding_whitespace.
  pose proof (lstrip_head s) as Hh.
  destruct (lstrip s) as [|c y]; [split; exact I|].
  rewrite (rstrip_cons _ _ Hh); split; [exact Hh|].
  rewrite <- (rstrip_cons _ _ Hh); unfold rstrip; rewrite rev_involutive.
  apply lstrip_head.
Qed.

Lemma strip_idempotent (s : str) : strip (strip s) = strip s.
Proof. apply strip_fixed, strip_no_surrounding_whitespace. Qed.

Lemma watermark_clean (w : World) :
  no_surrounding_whitespace (watermark w) /\ ~ In CR (watermark w).
Proof.
  unfold watermark; destruct (last_title_file w) as [raw|].
  - split; [apply strip_no_surrounding_whitespace|].
    intros H; apply strip_In in H.
    exact (universal_newlines_no_CR _ H).
  - split; [split; exact I | intros []].
Qed.

Lemma stored_title_loaded (t : str) (es : list event) :
  no_surrounding_whitespace t -> ~ In CR t ->
  watermark {| last_title_file := Some t; trace := es |} = t.
Proof.
  intros Hs Hc; unfold watermark, text_read; simpl.
  rewrite (universal_newlines_fixed _ Hc).
  apply strip_fixed; exact Hs.
Qed.

(** ** Runs of [main] *)

Lemma new_entries_of_head (last_title : str) (entries : list Entry)
    (newest : Entry) (older : list Entry) :
  new_entries_of last_title entries = inr (newest :: older) ->
  exists rest, entries = newest :: rest.
Proof.
  destruct entries as [|e es]; simpl; [discriminate|].
  destruct (title e) as [t|]; simpl; [|discriminate].
  destruct (str_eqb t last_title); [discriminate|].
  destruct (new_entries_of last_title es); [discriminate|].
  intros H; injection H as -> _; exists es; reflexivity.
Qed.

Lemma main_no_new_entries (env : Env) (w : World) (resp : Response) :
  requests_get env (trace w) RSS_FEED = inr resp ->
  (status_code resp <> 200%Z \/
   new_entries_of (watermark w) (feedparser_parse env (content resp))
   = inr []) ->
  main env w =
    (Returned tt, {| last_title_file := last_title_file w;
                     trace := trace w ++ [Get RSS_FEED] |}).
Proof.
  intros Hget H.
  destruct (Z.eq_dec (status_code resp) 200) as [H200|H200].
  - destruct H as [H|H]; [contradiction|].
    destruct (feedparser_parse env (content resp)) as [|e es] eqn:Hfeed.
    + unfold main; unfold bind at 1; rewrite (get_returns _ _ _ Hget).
      rewrite H200, Hfeed; reflexivity.
    + rewrite (main_up_to_delta _ _ Hget H200), Hfeed, H;
        [reflexivity | rewrite Hfeed; discriminate].
  - unfold main; unfold bind at 1; rewrite (get_returns _ _ _ Hget).
    apply Z.eqb_neq in H200; rewrite H200; reflexivity.
Qed.

Lemma main_delta_raises (env : Env) (w : World) (resp : Response)
    (e : exn) :
  requests_get env (trace w) RSS_FEED = inr resp ->
  status_code resp = 200%Z ->
  new_entries_of (watermark w) (feedparser_parse env (content resp))
  = inl e ->
  main env w =
    (Raised e, {| last_title_file := last_title_file w;
                  trace := trace w ++ [Get RSS_FEED] |}).
Proof.
  intros Hget H200 H.
  rewrite (main_up_to_delta _ _ Hget H200), H; [reflexivity|].
  intros E; rewrite E in H; discriminate H.
Qed.

(** When the feed answers with a status other than 200, or parses to no
    entry, the run ends normally after that one request: nothing is
    sent, summarized or written, and the watermark file is as before. *)
Theorem main_feed_unavailable (env : Env) (w : World) (resp : Response) :
  requests_get env (trace w) RSS_FEED = inr resp ->
  status_code resp <> 200%Z \/ feedparser_parse env (content resp) = [] ->
  main env w =
    (Returned tt, {| last_title_file := last_title_file w;
                     trace := trace w ++ [Get RSS_FEED] |}).
Proof.
  intros Hget [H|H]; apply (main_no_new_entries _ _ _ Hget);
    [left; exact H | right; rewrite H; reflexivity].
Qed.

Lemma main_feed_unavailable_witness :
  main (Examples.make_env [] Examples.page_ok Examples.summary_ok)
    (Examples.stored (lit "A"%string))
  = (Returned tt,
     {| last_title_file := Some (lit "A"%string); trace := [Get RSS_FEED] |}).
Proof.
  apply (main_feed_unavailable
           (Examples.make_env [] Examples.page_ok Examples.summary_ok)
           (Examples.stored (lit "A"%string))
           (Examples.ok_response (lit "<rss/>"%string)));
    [reflexivity | right; reflexivity].
Defined.

(** When the request for the feed raises (a timeout, a connection
    error), the run raises that exception at once: nothing catches it,
    nothing is sent or written. *)
Theorem main_feed_request_raises (env : Env) (w : World) (e : exn) :
  requests_get env (trace w) RSS_FEED = inl e ->
  main env w =
    (Raised e, {| last_title_file := last_title_file w;
                  trace := trace w ++ [Get RSS_FEED] |}).
Proof.
  intros Hget; unfold main; unfold bind at 1.
  rewrite (get_raises _ _ _ Hget); reflexivity.
Qed.

Lemma save_last_title_outcome (env : Env) (t : str) (w : World) :
  save_last_title env t w =
    if encodable env t then
      (Returned tt,
       {| last_title_file := Some t;
          trace := trace w ++ [Truncate LAST_TITLE_FILE;
                               Write LAST_TITLE_FILE t] |})
    else
      (Raised UnicodeEncodeError,
       {| last_title_file := Some [];
          trace := trace w ++ [Truncate LAST_TITLE_FILE] |}).
Proof.
  unfold save_last_title, bind, open_w, write, text_write; simpl.
  destruct (encodable env t); [rewrite <- app_assoc|]; reflexivity.
Qed.

(** Whatever happens in a run, the watermark file afterwards is in one
    of three states.  It is exactly as it was: so after every run that
    raises before the end of the processing loop, and after every run
    with nothing new.  Or the run returned normally and the file holds
    the title of the first entry of the feed.  Or the run raised
    [UnicodeEncodeError] while writing that title, which the encoding of
    the file cannot hold, and the file is left empty.  No run stores
    any other title. *)
Theorem watermark_file_after_run (env : Env) (w : World) :
  last_title_file (snd (main env w)) = last_title_file w \/
  exists resp newest older newest_title,
    requests_get env (trace w) RSS_FEED = inr resp /\
    feedparser_parse env (content resp) = newest :: older /\
    title newest = Some newest_title /\
    ((encodable env newest_title = true /\
      fst (main env w) = Returned tt /\
      last_title_file (snd (main env w)) = Some newest_title) \/
     (encodable env newest_title = false /\
      fst (main env w) = Raised UnicodeEncodeError /\
      last_title_file (snd (main env w)) = Some [])).
Proof.
  destruct (requests_get env (trace w) RSS_FEED) as [e|resp] eqn:Hget.
  { left; unfold main; unfold bind at 1.
    rewrite (get_raises _ _ _ Hget); reflexivity. }
  destruct (Z.eq_dec (status_code resp) 200) as [H200|H200];
    [|left; rewrite (main_no_new_entries _ _ _ Hget (or_introl H200));
      reflexivity].
  destruct (new_entries_of (watermark w)
              (feedparser_parse env (content resp)))
    as [e|[|newest older]] eqn:Hnew.
  { left; rewrite (main_delta_raises _ _ _ _ Hget H200 Hnew); reflexivity. }
  { left; rewrite (main_no_new_entries _ _ _ Hget (or_intror Hnew));
      reflexivity. }
  destruct (main_with_new_entries _ _ Hget H200 Hnew) as [t [Ht Hmain]].
  rewrite Hmain.
  set (w1 := {| last_title_file := last_title_file w;
                trace := trace w ++ [Get RSS_FEED] |}).
  destruct (quiet_for_each (rev (newest :: older)) (process env)
              (quiet_process env) w1) as [Hfile _].
  unfold bind.
  destruct (for_each (rev (newest :: older)) (process env) w1)
    as [[[]|e] w2]; simpl in Hfile; [right | left; exact Hfile].
  destruct (new_entries_of_head _ _ _ _ Hnew) as [rest Hfeed].
  exists resp, newest, rest, t.
  rewrite save_last_title_outcome.
  repeat split; try assumption.
  destruct (encodable env t); [left | right]; repeat split; reflexivity.
Qed.

Lemma main_returned_watermark (env : Env) (w : World) (resp : Response)
    (newest : Entry) (older : list Entry) (t : str) :
  requests_get env (trace w) RSS_FEED = inr resp ->
  status_code resp = 200%Z ->
  feedparser_parse env (content resp) = newest :: older ->
  title newest = Some t ->
  fst (main env w) = Returned tt ->
  watermark (snd (main env w)) = t \/
  watermark (snd (main env w)) = strip (universal_newlines t).
Proof.
  intros Hget H200 Hfeed Ht Hret.
  destruct (new_entries_of (watermark w) (newest :: older))
    as [e|[|n o]] eqn:Hnew.
  - rewrite <- Hfeed in Hnew.
    rewrite (main_delta_raises _ _ _ _ Hget H200 Hnew) in Hret.
    discriminate Hret.
  - left.
    assert (Hnew' : new_entries_of (watermark w)
                      (feedparser_parse env (content resp)) = inr [])
      by (rewrite Hfeed; exact Hnew).
    rewrite (main_no_new_entries _ _ _ Hget (or_intror Hnew')).
    apply (proj1 (new_entries_of_none _ _)) in Hnew; cbv iota in Hnew.
    rewrite Ht in Hnew; injection Hnew as ->; reflexivity.
  - right.
    destruct (new_entries_of_head _ _ _ _ Hnew) as [rest E].
    injection E as <- <-.
    rewrite <- Hfeed in Hnew.
    destruct (main_with_new_entries _ _ Hget H200 Hnew) as [t' [Ht' Hmain]].
    rewrite Ht in Ht'; injection Ht' as <-.
    rewrite Hmain in Hret |- *.
    unfold bind in Hret |- *.
    destruct (for_each _ (process env) _) as [[[]|e] w2];
      [|discriminate Hret].
    rewrite save_last_title_outcome in Hret |- *.
    destruct (encodable env t); [reflexivity | discriminate Hret].
Qed.

(** A run that returns normally makes the next run silent: if the title
    of the feed's first entry has no surrounding whitespace and no
    carriage return, then after a run that returned, a run that finds
    the same entry first in the feed does nothing but request the feed.
    The program is idempotent over an unchanged feed. *)
Theorem rerun_is_silent (env : Env) (w : World) (resp resp' : Response)
    (newest : Entry) (older older' : list Entry) (t : str) :
  requests_get env (trace w) RSS_FEED = inr resp ->
  status_code resp = 200%Z ->
  feedparser_parse env (content resp) = newest :: older ->
  title newest = Some t ->
  no_surrounding_whitespace t ->
  ~ In CR t ->
  fst (main env w) = Returned tt ->
  requests_get env (trace (snd (main env w))) RSS_FEED = inr resp' ->
  feedparser_parse env (content resp') = newest :: older' ->
  main env (snd (main env w)) =
    (Returned tt,
     {| last_title_file := last_title_file (snd (main env w));
        trace := trace (snd (main env w)) ++ [Get RSS_FEED] |}).
Proof.
  intros Hget H200 Hfeed Ht Hs Hc Hret Hget' Hfeed'.
  apply (main_no_new_entries _ _ _ Hget'); right.
  rewrite Hfeed'; apply new_entries_of_none; rewrite Ht; f_equal.
  destruct (main_returned_watermark _ _ _ _ _ _ Hget H200 Hfeed Ht Hret)
    as [->| ->]; [reflexivity|].
  rewrite (universal_newlines_fixed _ Hc).
  symmetry; apply strip_fixed; exact Hs.
Qed.

(** The other side: a title with leading or trailing whitespace, or
    with a carriage return, never equals a stored watermark, whatever
    the file holds; an entry with such a title never stops the loop and
    is new in every run, also right after the run that stored its
    title. *)
Theorem unclean_title_is_always_new (w : World) (entry : Entry)
    (older : list Entry) (t : str) :
  title entry = Some t ->
  ~ (no_surrounding_whitespace t /\ ~ In CR t) ->
  new_entries_of (watermark w) (entry :: older)
  = match new_entries_of (watermark w) older with
    | inl e => inl e
    | inr new_entries => inr (entry :: new_entries)
    end.
Proof.
  intros Ht Hbad.
  assert (Hne : t <> watermark w).
  { intros E; apply Hbad; rewrite E; apply watermark_clean. }
  simpl; rewrite Ht; simpl; rewrite (str_eqb_neq Hne); reflexivity.
Qed.

(** ** One entry *)

Lemma fetch_full_text_world (env : Env) (url : str) (w : World) :
  snd (fetch_full_text env url w)
  = {| last_title_file := last_title_file w;
       trace := trace w ++ [Get url] |}.
Proof.
  unfold fetch_full_text, bind.
  destruct (requests_get env (trace w) url) as [e|r] eqn:Hget.
  - rewrite (get_raises _ _ _ Hget); reflexivity.
  - rewrite (get_returns _ _ _ Hget).
    destruct (negb _); [reflexivity|].
    unfold lift; destruct (BeautifulSoup env (content r)); [reflexivity|].
    destruct (bs4.find _ _ _); [reflexivity|].
    destruct (bs4.find _ _ _); reflexivity.
Qed.

(** [fetch_full_text] makes exactly one request, whatever comes of it:
    the placeholder, a text or an exception; it never retries and
    touches nothing else.  It raises in two cases only, and then with
    the exception it met: when that request raises, and when the request
    was answered with status 200 and the parser rejects the page.  The
    extraction from a parsed page never fails. *)
Theorem fetch_full_text_one_request (env : Env) (url : str) (w : World) :
  (snd (fetch_full_text env url w)
   = {| last_title_file := last_title_file w;
        trace := trace w ++ [Get url] |}) /\
  (forall e,
     fst (fetch_full_text env url w) = Raised e <->
     requests_get env (trace w) url = inl e \/
     exists r,
       requests_get env (trace w) url = inr r /\
       status_code r = 200%Z /\
       BeautifulSoup env (content r) = inl e).
Proof.
  split; [apply fetch_full_text_world|].
  intros e.
  destruct (requests_get env (trace w) url) as [e'|r] eqn:Hget.
  - unfold fetch_full_text, bind; rewrite (get_raises _ _ _ Hget); simpl.
    split.
    + intros H; injection H as ->; left; reflexivity.
    + intros [H|[r [H _]]]; [injection H as ->; reflexivity | discriminate].
  - destruct (Z.eq_dec (status_code r) 200) as [H200|H200].
    + destruct (BeautifulSoup env (content r)) as [x|soup] eqn:Hsoup.
      * rewrite (fetch_full_text_rejected _ _ _ Hget H200 Hsoup); simpl.
        split.
        -- intros H; injection H as ->; right; exists r; auto.
        -- intros [H|[r' [H [_ Hs]]]]; [discriminate|].
           injection H as <-; rewrite Hsoup in Hs; injection Hs as ->.
           reflexivity.
      * rewrite (fetch_full_text_parsed _ _ _ Hget H200 Hsoup); simpl.
        split; [discriminate|].
        intros [H|[r' [H [_ Hs]]]]; [discriminate|].
        injection H as <-; rewrite Hsoup in Hs; discriminate.
    + rewrite (fetch_full_text_status _ _ _ Hget H200); simpl.
      split; [discriminate|].
      intros [H|[r' [H [H200' _]]]]; [discriminate|].
      injection H as <-; contradiction.
Qed.

(** The call of [summarize] passes the model and the text as two
    positional arguments: it raises [TypeError] before any request, and
    the handler returns the placeholder. *)
Lemma summarize_unavailable (env : Env) (text : str) (w : World) :
  summarize env text w = (Returned (lit "(summary unavailable)"%string), w).
Proof. reflexivity. Qed.

Lemma send_chunks_outcome (env : Env) (url : str)
    (data : str -> list (str * str)) (chunks : list str) :
  forall w,
    match fst (for_each chunks
                 (fun chunk => bind (post env url (data chunk))
                                 (fun _ => sleep 1)) w) with
    | Returned _ =>
        snd (for_each chunks
               (fun chunk => bind (post env url (data chunk))
                               (fun _ => sleep 1)) w)
        = {| last_title_file := last_title_file w;
             trace := trace w
                      ++ flat_map (fun c => [Post url (data c); Sleep 1])
                           chunks |}
    | Raised e =>
        exists sent chunk rest,
          chunks = sent ++ chunk :: rest /\
          requests_post env
            (trace w ++ flat_map (fun c => [Post url (data c); Sleep 1]) sent)
            url (data chunk) = inl e /\
          snd (for_each chunks
                 (fun chunk => bind (post env url (data chunk))
                                 (fun _ => sleep 1)) w)
          = {| last_title_file := last_title_file w;
               trace := trace w
                        ++ flat_map (fun c => [Post url (data c); Sleep 1])
                             sent
                        ++ [Post url (data chunk)] |}
    end.
Proof.
  set (body := fun chunk => bind (post env url (data chunk))
                              (fun _ => sleep 1)).
  assert (Hbody : forall c w,
            body c w =
            match requests_post env (trace w) url (data c) with
            | inl e => (Raised e,
                        {| last_title_file := last_title_file w;
                           trace := trace w ++ [Post url (data c)] |})
            | inr _ => (Returned tt,
                        {| last_title_file := last_title_file w;
                           trace := (trace w ++ [Post url (data c)])
                                    ++ [Sleep 1] |})
            end).
  { intros c w; unfold body, bind, post, bind, emit, sleep, emit; simpl.
    destruct (requests_post env (trace w) url (data c)); reflexivity. }
  clearbody body.
  induction chunks as [|c chunks IH]; intros w.
  - simpl; rewrite app_nil_r; symmetry; apply world_eta.
  - cbn [for_each]; unfold bind; rewrite Hbody.
    destruct (requests_post env (trace w) url (data c)) as [e|r] eqn:Hp.
    + exists [], c, chunks; cbn [flat_map app fst snd]; rewrite app_nil_r.
      repeat split; exact Hp.
    + specialize (IH {| last_title_file := last_title_file w;
                        trace := (trace w ++ [Post url (data c)])
                                 ++ [Sleep 1] |}).
      cbn [trace last_title_file] in IH.
      destruct (fst (for_each chunks body _)) as [[]|e].
      * rewrite IH; cbn [flat_map app]; rewrite <- !app_assoc; reflexivity.
      * destruct IH as [sent [chunk [rest [-> [Hraise Hw]]]]].
        exists (c :: sent), chunk, rest; cbn [flat_map app].
        rewrite <- !app_assoc in Hraise, Hw; cbn [app] in Hraise, Hw.
        rewrite <- !app_assoc; cbn [app].
        repeat split; [exact Hraise | exact Hw].
Qed.

(** How [send_message] ends.  When it returns, every chunk was posted
    in order, each followed by the pause of one second.  When it raises,
    the exception is the one raised by the request for some chunk: the
    chunks before it were posted and paused after, that request was the
    last thing done, and neither a pause nor a later chunk follows.  A
    failed request is never retried or skipped. *)
Theorem send_message_outcome (env : Env) (text : str) (w : World) :
  match fst (send_message env text w) with
  | Returned _ =>
      snd (send_message env text w)
      = {| last_title_file := last_title_file w;
           trace := trace w
                    ++ transmissions env (wrap (unicode env) text 4000) |}
  | Raised e =>
      exists sent chunk rest,
        wrap (unicode env) text 4000 = sent ++ chunk :: rest /\
        requests_post env (trace w ++ transmissions env sent)
          (lit "https://api.telegram.org/bot"%string
           ++ TELEGRAM_BOT_TOKEN env ++ lit "/sendMessage"%string)
          [(lit "chat_id"%string, TELEGRAM_CHAT_ID env);
           (lit "text"%string, chunk);
           (lit "parse_mode"%string, lit "HTML"%string)] = inl e /\
        snd (send_message env text w)
        = {| last_title_file := last_title_file w;
             trace := trace w ++ transmissions env sent
                      ++ [Post (lit "https://api.telegram.org/bot"%string
                                ++ TELEGRAM_BOT_TOKEN env
                                ++ lit "/sendMessage"%string)
                            [(lit "chat_id"%string, TELEGRAM_CHAT_ID env);
                             (lit "text"%string, chunk);
                             (lit "parse_mode"%string, lit "HTML"%string)]] |}
  end.
Proof.
  exact (send_chunks_outcome env
           (lit "https://api.telegram.org/bot"%string
            ++ TELEGRAM_BOT_TOKEN env ++ lit "/sendMessage"%string)
           (fun chunk => [(lit "chat_id"%string, TELEGRAM_CHAT_ID env);
                          (lit "text"%string, chunk);
                          (lit "parse_mode"%string, lit "HTML"%string)])
           (wrap (unicode env) text 4000) w).
Qed.

Lemma send_message_world (env : Env) (text : str) (w : World) :
  reliable env ->
  send_message env text w
  = (Returned tt,
     {| last_title_file := last_title_file w;
        trace := trace w
                 ++ transmissions env (wrap (unicode env) text 4000) |}).
Proof.
  intros Hrel.
  pose proof (send_message_returns text w Hrel) as Hr.
  pose proof (send_chunks_outcome env
           (lit "https://api.telegram.org/bot"%string
            ++ TELEGRAM_BOT_TOKEN env ++ lit "/sendMessage"%string)
           (fun chunk => [(lit "chat_id"%string, TELEGRAM_CHAT_ID env);
                          (lit "text"%string, chunk);
                          (lit "parse_mode"%string, lit "HTML"%string)])
           (wrap (unicode env) text 4000) w) as Ho.
  change (for_each _ _ w) with (send_message env text w) in Ho.
  destruct (send_message env text w) as [o w']; simpl in Hr, Ho.
  subst o; rewrite Ho; reflexivity.
Qed.

Lemma send_message_returned (env : Env) (text : str) (w : World) :
  fst (send_message env text w) = Returned tt ->
  send_message env text w
  = (Returned tt,
     {| last_title_file := last_title_file w;
        trace := trace w
                 ++ transmissions env (wrap (unicode env) text 4000) |}).
Proof.
  intros Hr.
  pose proof (send_chunks_outcome env
           (lit "https://api.telegram.org/bot"%string
            ++ TELEGRAM_BOT_TOKEN env ++ lit "/sendMessage"%string)
           (fun chunk => [(lit "chat_id"%string, TELEGRAM_CHAT_ID env);
                          (lit "text"%string, chunk);
                          (lit "parse_mode"%string, lit "HTML"%string)])
           (wrap (unicode env) text 4000) w) as Ho.
  change (for_each _ _ w) with (send_message env text w) in Ho.
  destruct (send_message env text w) as [o w']; simpl in Hr, Ho.
  subst o; rewrite Ho; reflexivity.
Qed.

(** The body of the loop for an entry with a title and a link: the
    header, the page, the link message; the summary is the
    placeholder. *)
Lemma process_steps (env : Env) (entry : Entry) (w : World) (t l : str) :
  title entry = Some t ->
  link entry = Some l ->
  process env entry w =
    bind (send_message env (lit "<b>"%string ++ t ++ lit "</b>"%string))
      (fun _ =>
         bind (fetch_full_text env l)
           (fun _ =>
              send_message env
                (lit "(summary unavailable)"%string
                 ++ [LF; LF; LINK_SYMBOL] ++ lit " <a href="%string
                 ++ [QUOTE] ++ l ++ [QUOTE]
                 ++ lit ">Read full circular</a>"%string))) w.
Proof.
  intros Ht Hl; unfold process, bind; rewrite Ht, Hl.
  cbn [attribute lift].
  destruct (send_message env _ w) as [[[]|e] w1]; [|reflexivity].
  destruct (fetch_full_text env l w1) as [[full_text|e] w2]; [|reflexivity].
  rewrite summarize_unavailable; reflexivity.
Qed.

Lemma process_run (env : Env) (entry : Entry) (w : World) (t l : str) :
  reliable env ->
  parser_accepts env ->
  title entry = Some t ->
  link entry = Some l ->
  process env entry w
  = (Returned tt,
     {| last_title_file := last_title_file w;
        trace := trace w ++ entry_events env t l |}).
Proof.
  intros Hrel Hparse Ht Hl.
  rewrite (process_steps env entry w t l Ht Hl).
  unfold bind at 1; rewrite (send_message_world _ _ _ Hrel).
  set (w1 := {| last_title_file := last_title_file w;
                trace := trace w ++ transmissions env _ |}).
  pose proof (fetch_full_text_world env l w1) as Hw.
  assert (Hr : exists full_text,
             fst (fetch_full_text env l w1) = Returned full_text).
  { destruct Hrel as [Hget _].
    destruct (Hget (trace w1) l) as [r Hr].
    destruct (Z.eq_dec (status_code r) 200) as [H200|H200].
    - destruct (Hparse (content r)) as [soup Hsoup].
      rewrite (fetch_full_text_parsed _ _ _ Hr H200 Hsoup).
      eexists; reflexivity.
    - rewrite (fetch_full_text_status _ _ _ Hr H200).
      eexists; reflexivity. }
  destruct Hr as [full_text Hr].
  unfold bind at 1.
  destruct (fetch_full_text env l w1) as [o w2]; simpl in Hr, Hw.
  subst o w2.
  rewrite (send_message_world _ _ _ Hrel).
  unfold entry_events; subst w1; cbn [trace last_title_file].
  rewrite <- !app_assoc; reflexivity.
Qed.

Lemma process_returned (env : Env) (entry : Entry) (w : World) :
  fst (process env entry w) = Returned tt ->
  exists t l,
    title entry = Some t /\
    link entry = Some l /\
    snd (process env entry w)
    = {| last_title_file := last_title_file w;
         trace := trace w ++ entry_events env t l |}.
Proof.
  destruct (title entry) as [t|] eqn:Ht;
    [|unfold process, bind; rewrite Ht; cbn [attribute lift]; discriminate].
  destruct (link entry) as [l|] eqn:Hl.
  - rewrite (process_steps env entry w t l Ht Hl).
    intros Hr; exists t, l; repeat split.
    revert Hr; unfold bind at 1 3.
    pose proof (send_message_returned env
                  (lit "<b>"%string ++ t ++ lit "</b>"%string) w) as H1.
    destruct (send_message env _ w) as [[[]|e] w1]; [|discriminate].
    specialize (H1 eq_refl); injection H1 as ->.
    set (w1 := {| last_title_file := last_title_file w;
                  trace := trace w ++ transmissions env _ |}).
    unfold bind.
    pose proof (fetch_full_text_world env l w1) as Hw.
    destruct (fetch_full_text env l w1) as [[full_text|e] w2];
      [|discriminate].
    simpl in Hw; subst w2.
    match goal with
    | |- context [send_message env ?m ?w2] =>
        pose proof (send_message_returned env m w2) as H2;
        destruct (send_message env m w2) as [[[]|e] w3]
    end; [|discriminate].
    intros _; specialize (H2 eq_refl); injection H2 as ->.
    unfold entry_events; subst w1; cbn [snd trace last_title_file].
    rewrite <- !app_assoc; reflexivity.
  - unfold process, bind; rewrite Ht, Hl; cbn [attribute lift].
    destruct (send_message env _ w) as [[[]|e] w1]; discriminate.
Qed.

(** The events of processing one entry that has a title and a link,
    over a network that answers and a parser that accepts the page: the
    header message (the title in bold), then one request for the page
    of the entry, then the message made of the summary placeholder, a
    blank line, the link symbol and the link to the entry; in that order
    and nothing else.  The summarization service is not called. *)
Theorem process_events (env : Env) (entry : Entry) (w : World)
    (t l : str) :
  reliable env ->
  parser_accepts env ->
  title entry = Some t ->
  link entry = Some l ->
  process env entry w
  = (Returned tt,
     {| last_title_file := last_title_file w;
        trace := trace w ++ entry_events env t l |}).
Proof. exact (process_run env entry w t l). Qed.

Lemma loop_run (env : Env) :
  reliable env ->
  parser_accepts env ->
  forall (items : list (str * str)) (w : World),
    for_each
      (map (fun i => {| title := Some (fst i); link := Some (snd i) |}) items)
      (process env) w
    = (Returned tt,
       {| last_title_file := last_title_file w;
          trace := trace w
                   ++ flat_map (fun i => entry_events env (fst i) (snd i))
                        items |}).
Proof.
  intros Hrel Hparse; induction items as [|i items IH]; intros w.
  - simpl; rewrite app_nil_r, world_eta; reflexivity.
  - cbn [map for_each flat_map]; unfold bind.
    rewrite (process_run env
               {| title := Some (fst i); link := Some (snd i) |} w
               (fst i) (snd i) Hrel Hparse eq_refl eq_refl).
    rewrite IH; cbn [trace last_title_file].
    rewrite <- app_assoc; reflexivity.
Qed.

(** C6, as the code has it.  For every input text [summarize] returns a
    string and never raises, and it changes nothing.  But the string is
    always the placeholder: the call passes the model name and the text
    as two positional arguments to a method that takes the text as its
    only positional argument, so the call raises [TypeError] before any
    request is made, whatever the hosted service would answer, and the
    summary of the model is never returned.  As the summarizer never
    raises it never aborts the loop: over a network that answers and a
    parser that accepts its pages, the loop processes every entry that
    has a title and a link, one after the other, whatever the
    summarization service does. *)
Theorem summarize_never_raises (env : Env) :
  (forall text w,
     summarize env text w
     = (Returned (lit "(summary unavailable)"%string), w)) /\
  (reliable env ->
   parser_accepts env ->
   forall (items : list (str * str)) (w : World),
     for_each
       (map (fun i => {| title := Some (fst i); link := Some (snd i) |})
          items)
       (process env) w
     = (Returned tt,
        {| last_title_file := last_title_file w;
           trace := trace w
                    ++ flat_map (fun i => entry_events env (fst i) (snd i))
                         items |})).
Proof.
  split; [intros text w; apply summarize_unavailable | apply loop_run].
Qed.

(** ** The order of a run *)

Lemma fetched_app (a b : list event) :
  fetched (a ++ b) = fetched a ++ fetched b.
Proof. apply flat_map_app. Qed.

Lemma fetched_transmissions (env : Env) (chunks : list str) :
  fetched (transmissions env chunks) = [].
Proof. induction chunks as [|c chunks IH]; [reflexivity | exact IH]. Qed.

Lemma fetched_entry_events (env : Env) (t l : str) :
  fetched (entry_events env t l) = [l].
Proof.
  unfold entry_events.
  rewrite !fetched_app, !fetched_transmissions; reflexivity.
Qed.

Lemma loop_fetched (env : Env) (entries : list Entry) :
  forall w,
    fst (for_each entries (process env) w) = Returned tt ->
    exists links es,
      map link entries = map Some links /\
      snd (for_each entries (process env) w)
      = {| last_title_file := last_title_file w; trace := trace w ++ es |} /\
      fetched es = links.
Proof.
  induction entries as [|e entries IH]; intros w.
  - intros _; exists [], []; simpl; rewrite app_nil_r, world_eta.
    repeat split.
  - cbn [for_each]; unfold bind.
    pose proof (process_returned env e w) as Hp.
    destruct (process env e w) as [[[]|x] w1]; [|discriminate].
    destruct (Hp eq_refl) as [t [l [Ht [Hl Hw]]]].
    simpl in Hw; subst w1.
    intros Hr; destruct (IH _ Hr) as [links [es [Hlinks [Hw Hes]]]].
    exists (l :: links), (entry_events env t l ++ es).
    rewrite Hw; cbn [map trace last_title_file]; rewrite Hl, Hlinks.
    rewrite fetched_app, fetched_entry_events, Hes, <- app_assoc.
    repeat split.
Qed.

(** Whenever a run that fetched the feed returns normally, it has
    requested the feed and then the pages of the new entries oldest
    first (the reverse of the feed order), one request each, and nothing
    else. *)
Theorem pages_fetched_oldest_first (env : Env) (w : World)
    (resp : Response) :
  requests_get env (trace w) RSS_FEED = inr resp ->
  status_code resp = 200%Z ->
  fst (main env w) = Returned tt ->
  exists new_entries links,
    new_entries_of (watermark w) (feedparser_parse env (content resp))
    = inr new_entries /\
    map link (rev new_entries) = map Some links /\
    fetched (trace (snd (main env w)))
    = fetched (trace w) ++ RSS_FEED :: links.
Proof.
  intros Hget H200.
  destruct (new_entries_of (watermark w)
              (feedparser_parse env (content resp)))
    as [e|[|newest older]] eqn:Hnew.
  - rewrite (main_delta_raises _ _ _ _ Hget H200 Hnew); discriminate.
  - rewrite (main_no_new_entries _ _ _ Hget (or_intror Hnew)).
    intros _; exists [], []; repeat split.
    simpl; apply fetched_app.
  - destruct (main_with_new_entries _ _ Hget H200 Hnew) as [t [Ht Hmain]].
    rewrite Hmain; unfold bind.
    pose proof (loop_fetched env (rev (newest :: older))
                  {| last_title_file := last_title_file w;
                     trace := trace w ++ [Get RSS_FEED] |}) as Hloop.
    destruct (for_each (rev (newest :: older)) (process env) _)
      as [[[]|e] w2]; [|discriminate].
    destruct (Hloop eq_refl) as [links [es [Hlinks [Hw Hes]]]].
    simpl in Hw; subst w2.
    rewrite save_last_title_outcome.
    destruct (encodable env t); [|discriminate].
    intros _; exists (newest :: older), links.
    repeat split; [exact Hlinks|].
    cbn [snd trace]; rewrite !fetched_app, Hes.
    cbn [fetched flat_map app]; rewrite app_nil_r, <- app_assoc.
    reflexivity.
Qed.

(** ** The extracted text *)

Lemma no_surrounding_whitespace_app (a m b : str) :
  a <> [] -> b <> [] ->
  no_surrounding_whitespace a -> no_surrounding_whitespace b ->
  no_surrounding_whitespace (a ++ m ++ b).
Proof.
  unfold no_surrounding_whitespace; intros Ha Hb [Ha1 _] [_ Hb2].
  destruct a as [|x a]; [contradiction|]; split; [exact Ha1|].
  rewrite !rev_app_distr.
  destruct (rev b) as [|y r] eqn:E; [|exact Hb2].
  apply (f_equal (@rev char)) in E; rewrite rev_involutive in E.
  contradiction.
Qed.

Lemma join_nonempty (sep p : str) (ps : list str) :
  p <> [] -> join sep (p :: ps) <> [].
Proof.
  intros Hp; destruct ps as [|q ps]; [exact Hp|].
  destruct p as [|x p]; [contradiction | discriminate].
Qed.

Lemma join_no_surrounding_whitespace (sep : str) (parts : list str) :
  Forall (fun p => p <> [] /\ no_surrounding_whitespace p) parts ->
  no_surrounding_whitespace (join sep parts).
Proof.
  induction 1 as [|p ps [Hp Hs] Hps IH]; [split; exact I|].
  destruct ps as [|q ps]; [exact Hs|].
  change (join sep (p :: q :: ps)) with (p ++ sep ++ join sep (q :: ps)).
  apply no_surrounding_whitespace_app; auto.
  apply join_nonempty; inversion Hps as [|? ? [Hq _] _]; exact Hq.
Qed.

Lemma stripped_strings_stripped (n : bs4.Node) :
  Forall (fun p => p <> [] /\ no_surrounding_whitespace p)
    (bs4.stripped_strings n).
Proof.
  apply Forall_forall; intros p Hp.
  unfold bs4.stripped_strings in Hp; apply in_flat_map in Hp.
  destruct Hp as [d [_ Hd]].
  destruct d as [s| |]; try contradiction.
  pose proof (strip_no_surrounding_whitespace s) as Hs.
  destruct (strip s) as [|c t]; [contradiction|].
  destruct Hd as [<-|[]]; split; [discriminate | exact Hs].
Qed.

Lemma get_text_no_surrounding_whitespace (n : bs4.Node) (sep : str) :
  no_surrounding_whitespace (bs4.get_text n sep).
Proof.
  apply join_no_surrounding_whitespace, stripped_strings_stripped.
Qed.

Lemma placeholder_no_surrounding_whitespace (code : str) :
  no_surrounding_whitespace
    (lit "(Could not fetch content; HTTP "%string ++ code
     ++ lit ")"%string).
Proof.
  split; [reflexivity|].
  rewrite !rev_app_distr; reflexivity.
Qed.

(** Whatever [fetch_full_text] returns has no leading and no trailing
    whitespace: the placeholder, the text of the release element, the
    paragraphs of the container and the text of the whole page are all
    stripped at both ends. *)
Theorem fetch_full_text_stripped (env : Env) (url : str) (w : World)
    (full_text : str) :
  fst (fetch_full_text env url w) = Returned full_text ->
  no_surrounding_whitespace full_text.
Proof.
  destruct (requests_get env (trace w) url) as [e|r] eqn:Hget.
  { unfold fetch_full_text, bind; rewrite (get_raises _ _ _ Hget).
    discriminate. }
  destruct (Z.eq_dec (status_code r) 200) as [H200|H200];
    [|rewrite (fetch_full_text_status _ _ _ Hget H200);
      intros H; injection H as <-;
      apply placeholder_no_surrounding_whitespace].
  destruct (BeautifulSoup env (content r)) as [e|soup] eqn:Hsoup;
    [rewrite (fetch_full_text_rejected _ _ _ Hget H200 Hsoup); discriminate|].
  rewrite (fetch_full_text_parsed _ _ _ Hget H200 Hsoup).
  intros H; injection H as <-.
  destruct (bs4.find _ _ _);
    [apply get_text_no_surrounding_whitespace|].
  destruct (bs4.find _ _ _) as [panel|];
    [|apply get_text_no_surrounding_whitespace].
  apply join_no_surrounding_whitespace, Forall_forall; intros t Ht.
  apply in_map_iff in Ht; destruct Ht as [p [<- Hp]].
  apply filter_In in Hp; destruct Hp as [_ Hlen].
  apply Nat.ltb_lt in Hlen.
  split; [|apply get_text_no_surrounding_whitespace].
  intros E; rewrite E in Hlen; simpl in Hlen; lia.
Qed.

Lemma join_length (sep p : str) (ps : list str) :
  length p <= length (join sep (p :: ps)).
Proof.
  destruct ps as [|q ps]; [apply Nat.le_refl|].
  change (join sep (p :: q :: ps)) with (p ++ sep ++ join sep (q :: ps)).
  rewrite length_app; lia.
Qed.

(** The fallback on the container never falls through to the whole
    page: with no release element and a container, the result is the
    empty string exactly when no paragraph below the container has more
    than 20 characters of stripped text, and otherwise it has more than
    20 characters itself. *)
Theorem fetch_full_text_fallback_empty_or_long (env : Env) (url : str)
    (w : World) (r : Response) (soup panel : bs4.Node) :
  requests_get env (trace w) url = inr r ->
  status_code r = 200%Z ->
  BeautifulSoup env (content r) = inr soup ->
  bs4.find soup (lit "span"%string)
    (lit "ctl00_Content_Main_lblRelease"%string) = None ->
  bs4.find soup (lit "div"%string)
    (lit "ctl00_Content_Main_panelPressRelease"%string) = Some panel ->
  exists full_text,
    fst (fetch_full_text env url w) = Returned full_text /\
    (full_text = [] <->
     Forall (fun p => length (bs4.get_text p []) <= 20)
       (bs4.find_all panel (lit "p"%string) None)) /\
    (full_text <> [] -> 20 < length full_text).
Proof.
  intros Hget H200 Hsoup Hspan Hdiv.
  rewrite (fetch_full_text_parsed _ _ _ Hget H200 Hsoup), Hspan, Hdiv.
  eexists; split; [reflexivity|].
  set (paras := bs4.find_all panel (lit "p"%string) None).
  destruct (filter (fun p => 20 <? length (bs4.get_text p [])) paras)
    as [|p ps] eqn:E.
  - split; [|intros H; contradiction H; reflexivity].
    split; [intros _|reflexivity].
    apply Forall_forall; intros p Hp.
    destruct (20 <? length (bs4.get_text p [])) eqn:Hl;
      [|apply Nat.ltb_ge in Hl; exact Hl].
    assert (Hin : In p (filter (fun p => 20 <? length (bs4.get_text p []))
                          paras))
      by (apply filter_In; split; assumption).
    rewrite E in Hin; contradiction.
  - assert (Hp : In p (filter (fun p => 20 <? length (bs4.get_text p []))
                         paras)) by (rewrite E; left; reflexivity).
    apply filter_In in Hp; destruct Hp as [Hin Hl].
    apply Nat.ltb_lt in Hl.
    cbn [map].
    pose proof (join_length [LF; LF] (bs4.get_text p [])
                  (map (fun p => bs4.get_text p []) ps)) as Hj.
    split; [|intros _; lia].
    split.
    + intros H; rewrite H in Hj; simpl in Hj; lia.
    + intros Hall; rewrite Forall_forall in Hall.
      specialize (Hall p Hin); lia.
Qed.

(** ** Wrapping any text *)

Lemma handle_long_word_spec (c : str) (below cur_line : list str)
    (cur_len width : nat) :
  1 <= width -> cur_len <= width -> width < length c ->
  exists e,
    _handle_long_word (c :: below) cur_line cur_len width
    = (skipn e c :: below, cur_line ++ [firstn e c]) /\
    e <= width - cur_len /\
    (cur_len < width -> 1 <= e).
Proof.
  intros Hw Hlen Hlong; unfold _handle_long_word.
  replace (width <? 1) with false by (symmetry; apply Nat.ltb_ge; lia).
  set (k := width - cur_len).
  eexists; split; [reflexivity|].
  replace (k <? length c) with true
    by (symmetry; apply Nat.ltb_lt; unfold k; lia).
  unfold rfind_hyphen; destruct (rfind_hyphen_from 0 k c) eqn:R;
    [|split; [lia | unfold k; lia]].
  apply rfind_hyphen_lt in R.
  destruct (_ && _); split; unfold k in *; lia.
Qed.

Lemma line_of_nonempty (chunks : list str) :
  Forall (fun c => c <> []) chunks ->
  match chunks with [] => None | _ => Some (concat chunks) end
  = match concat chunks with [] => None | _ => Some (concat chunks) end.
Proof.
  destruct chunks as [|c below]; simpl; [reflexivity|].
  intros H; inversion H as [|? ? Hne _]; subst.
  destruct c; [contradiction | reflexivity].
Qed.

Lemma drop_trailing_blank_nonempty (cur_line : list str) (piece : str) :
  Forall (fun c => c <> []) cur_line ->
  Forall (fun c => c <> []) (drop_trailing_blank (cur_line ++ [piece])).
Proof.
  intros H; destruct (blank piece) eqn:E.
  - rewrite (drop_trailing_blank_app _ _ E); exact H.
  - unfold drop_trailing_blank; rewrite rev_app_distr; simpl; rewrite E.
    apply Forall_app; split; [exact H|].
    constructor; [|constructor].
    intros ->; discriminate E.
Qed.

Lemma drop_trailing_blank_prefix (cur_line : list str) :
  Forall (fun c => c <> []) cur_line ->
  Forall (fun c => c <> []) (drop_trailing_blank cur_line).
Proof.
  intros H.
  destruct (drop_trailing_blank_spec cur_line) as (g2 & dropped & Hd & _ & _).
  rewrite Hd in H; apply Forall_app in H; tauto.
Qed.

Lemma wrap_line_parts (width : nat) (started : bool) (c0 : str)
    (below chunks' : list str) (line : option str) :
  1 <= width ->
  Forall (fun c => c <> []) (c0 :: below) ->
  wrap_line width started (c0 :: below) = (chunks', line) ->
  exists g1 l g2,
    concat (c0 :: below) = g1 ++ l ++ g2 ++ concat chunks' /\
    blank g1 = true /\ blank g2 = true /\
    line = match l with [] => None | _ => Some l end /\
    Forall (fun c => c <> []) chunks' /\
    measure chunks' < measure (c0 :: below).
Proof.
  intros Hw Hne; unfold wrap_line.
  set (chunks1 := if blank c0 && started then below else c0 :: below).
  assert (Ha : exists g1,
             concat (c0 :: below) = g1 ++ concat chunks1 /\
             blank g1 = true /\
             Forall (fun c => c <> []) chunks1 /\
             (chunks1 = c0 :: below \/
              measure chunks1 < measure (c0 :: below))).
  { unfold chunks1; destruct (blank c0 && started) eqn:D.
    - exists c0; apply andb_true_iff in D; destruct D as [D _].
      inversion Hne; subst.
      repeat split; auto; right; rewrite measure_cons; lia.
    - exists []; repeat split; auto. }
  destruct Ha as (g1 & Hcat1 & Hg1 & Hne1 & Hm1).
  clearbody chunks1.
  destruct (fill_line width 0 chunks1) as [cur_line chunks2] eqn:F.
  destruct (fill_line_spec _ _ _ _ _ F) as (Hsplit & Hlen & Hrest).
  specialize (Hlen (Nat.le_0_l _)); simpl in Hlen, Hrest.
  rewrite Hsplit in Hne1; apply Forall_app in Hne1.
  destruct Hne1 as [Hcur Hne2].
  assert (Hparts :
    forall chunks3 cur_line1,
      Forall (fun c => c <> []) chunks3 ->
      Forall (fun c => c <> []) (drop_trailing_blank cur_line1) ->
      concat cur_line ++ concat chunks2
      = concat cur_line1 ++ concat chunks3 ->
      measure chunks3 < measure (c0 :: below) ->
      (let cur_line2 := drop_trailing_blank cur_line1 in
       match cur_line2 with
       | [] => (chunks3, None)
       | _ :: _ => (chunks3, Some (concat cur_line2))
       end) = (chunks', line) ->
      exists g1 l g2,
        concat (c0 :: below) = g1 ++ l ++ g2 ++ concat chunks' /\
        blank g1 = true /\ blank g2 = true /\
        line = match l with [] => None | _ => Some l end /\
        Forall (fun c => c <> []) chunks' /\
        measure chunks' < measure (c0 :: below)).
  { intros chunks3 cur_line1 Hne3 Hne4 Hcat Hm H.
    destruct (drop_trailing_blank_spec cur_line1)
      as (g2 & dropped & Hd & Hg2c & Hg2).
    cbv zeta in H.
    set (cur_line2 := drop_trailing_blank cur_line1) in *.
    assert (H' : (chunks', line)
                 = (chunks3, match cur_line2 with
                             | [] => None
                             | _ => Some (concat cur_line2)
                             end)).
    { rewrite <- H; destruct cur_line2; reflexivity. }
    clear H; injection H' as -> ->.
    exists g1, (concat cur_line2), g2.
    repeat split; auto.
    - rewrite Hcat1, Hsplit, concat_app, Hcat.
      rewrite Hd at 1; rewrite concat_app, Hg2c, <- !app_assoc.
      reflexivity.
    - apply line_of_nonempty; exact Hne4. }
  destruct chunks2 as [|c below2].
  - (* the stack is empty *)
    apply Hparts; auto.
    + apply drop_trailing_blank_prefix; exact Hcur.
    + change (measure []) with 0.
      destruct Hm1 as [_|Hm1]; [apply measure_pos | lia].
  - destruct (width <? length c) eqn:Elong.
    + (* the next chunk fits on no line and is cut *)
      apply Nat.ltb_lt in Elong.
      destruct (handle_long_word_spec c below2 cur_line
                  (length (concat cur_line)) width Hw Hlen Elong)
        as (e & -> & He & He1).
      inversion Hne2 as [|? ? Hc Hb2]; subst.
      apply Hparts.
      * constructor; [|exact Hb2].
        intros E; apply (f_equal (@length char)) in E.
        rewrite length_skipn in E; simpl in E; lia.
      * apply drop_trailing_blank_nonempty; exact Hcur.
      * simpl; rewrite concat_app; simpl.
        rewrite app_nil_r, <- !app_assoc, (app_assoc (firstn e c)).
        rewrite firstn_skipn; reflexivity.
      * assert (Hm : measure (skipn e c :: below2)
                     < measure (cur_line ++ c :: below2)).
        { rewrite measure_app, !measure_cons, length_skipn.
          destruct cur_line as [|x xs]; [|pose proof (measure_pos x xs); lia].
          simpl in He1; unfold measure at 2; simpl.
          specialize (He1 Hw); lia. }
        destruct Hm1 as [Hm1|Hm1]; [rewrite <- Hm1 | ]; lia.
    + (* the next chunk goes to the next line *)
      apply Nat.ltb_ge in Elong.
      apply Hparts; auto.
      * apply drop_trailing_blank_prefix; exact Hcur.
      * assert (Hm : measure (c :: below2)
                     < measure (cur_line ++ c :: below2)).
        { rewrite measure_app.
          destruct cur_line as [|x xs]; [simpl in Hrest; lia|].
          pose proof (measure_pos x xs); lia. }
        rewrite <- Hsplit in Hm.
        destruct Hm1 as [Hm1|Hm1]; [rewrite <- Hm1 | ]; lia.
Qed.

Lemma wrap_from_interleaved (width : nat) :
  1 <= width ->
  forall (fuel : nat) (started : bool) (chunks : list str) (gap : str),
    Forall (fun c => c <> []) chunks ->
    blank gap = true ->
    measure chunks <= fuel ->
    interleaved (gap ++ concat chunks) (wrap_from fuel width started chunks).
Proof.
  intros Hw; induction fuel as [|fuel IH];
    intros started [|c0 below] gap Hne Hgap Hfuel;
    try (simpl; rewrite app_nil_r; apply interleaved_end; exact Hgap).
  - pose proof (measure_pos c0 below); lia.
  - simpl wrap_from.
    destruct (wrap_line width started (c0 :: below)) as [chunks' line] eqn:E.
    destruct (wrap_line_parts _ _ _ _ _ _ Hw Hne E)
      as (g1 & l & g2 & Hcat & Hg1 & Hg2 & Hline & Hne' & Hm).
    rewrite Hcat; subst line; destruct l as [|x l].
    + simpl app at 2.
      replace (gap ++ g1 ++ g2 ++ concat chunks')
        with ((gap ++ g1 ++ g2) ++ concat chunks')
        by (rewrite <- !app_assoc; reflexivity).
      apply IH; auto; [|lia].
      rewrite !blank_app, Hgap, Hg1, Hg2; reflexivity.
    + replace (gap ++ g1 ++ (x :: l) ++ g2 ++ concat chunks')
        with ((gap ++ g1) ++ (x :: l) ++ (g2 ++ concat chunks'))
        by (rewrite <- !app_assoc; reflexivity).
      apply interleaved_line.
      * rewrite blank_app, Hgap, Hg1; reflexivity.
      * discriminate.
      * apply IH; auto; lia.
Qed.

Lemma split_from_nonempty (U : Unicode) :
  forall fuel prev rest,
    Forall (fun c => c <> []) (split_from U fuel prev rest).
Proof.
  induction fuel as [|fuel IH]; intros prev rest; [constructor|].
  destruct rest as [|c rest']; [constructor|].
  rewrite split_from_cons.
  destruct (match_len_spec U prev c rest') as [H1 _].
  constructor; [|apply IH].
  destruct (match_len U prev c rest'); [lia | discriminate].
Qed.

Lemma wrap_interleaved (U : Unicode) (text : str) (width : nat) :
  1 <= width ->
  interleaved (_munge_whitespace text) (wrap U text width).
Proof.
  intros Hw; unfold wrap; rewrite wrap_chunks_from.
  set (m := _munge_whitespace text).
  assert (Hc : concat (_split U m) = m)
    by (apply split_from_concat; apply Nat.le_refl).
  rewrite <- Hc at 1.
  apply (wrap_from_interleaved width Hw _ false (_split U m) []).
  - apply split_from_nonempty.
  - reflexivity.
  - apply Nat.le_refl.
Qed.

Lemma interleaved_nonspace (text : str) (lines : list str) :
  interleaved text lines -> nonspace (concat lines) = nonspace text.
Proof.
  induction 1 as [gap Hgap | gap line rest lines Hgap Hne Hrest IH].
  - rewrite (nonspace_blank _ Hgap); reflexivity.
  - simpl; rewrite !nonspace_app, (nonspace_blank _ Hgap), IH; reflexivity.
Qed.

Lemma interleaved_nonempty (text : str) (lines : list str) :
  interleaved text lines -> Forall (fun line => line <> []) lines.
Proof. induction 1; constructor; assumption. Qed.

Lemma interleaved_In (text : str) (lines : list str) (line : str)
    (c : char) :
  interleaved text lines -> In line lines -> In c line -> In c text.
Proof.
  induction 1 as [gap Hgap | gap l rest lines Hgap Hne Hrest IH];
    intros Hl Hc; [contradiction|].
  apply in_or_app; right; apply in_or_app.
  destruct Hl as [->|Hl]; [left; exact Hc | right; apply IH; assumption].
Qed.

Lemma expandtabs_no_tab (tabsize : nat) (s : str) :
  0 < tabsize ->
  forall column, ~ In TAB (expandtabs_from tabsize column s).
Proof.
  intros Ht; induction s as [|c s IH]; intros column; [intros []|].
  assert (E : (0 <? tabsize) = true) by (apply Nat.ltb_lt; exact Ht).
  change (expandtabs_from tabsize column (c :: s)) with
    (if N.eqb c TAB then
       if 0 <? tabsize then
         repeat SPACE (tabsize - column mod tabsize)
         ++ expandtabs_from tabsize
              (column + (tabsize - column mod tabsize)) s
       else expandtabs_from tabsize column s
     else c :: expandtabs_from tabsize
                 (if N.eqb c LF || N.eqb c CR then 0 else S column) s).
  destruct (N.eqb_spec c TAB) as [->|Hc].
  - rewrite E; intros H; apply in_app_or in H; destruct H as [H|H].
    + apply repeat_spec in H; discriminate H.
    + exact (IH _ H).
  - intros [H|H]; [congruence | exact (IH _ H)].
Qed.

Lemma nonspace_nil_blank (s : str) : nonspace s = [] -> blank s = true.
Proof.
  unfold nonspace, blank; induction s as [|c s IH]; simpl; [reflexivity|].
  destruct (isspace c); simpl; [exact IH | discriminate].
Qed.

Lemma expandtabs_In (tabsize : nat) (s : str) (c : char) :
  forall column,
    In c (expandtabs_from tabsize column s) -> In c s \/ c = SPACE.
Proof.
  induction s as [|x s IH]; intros column; [intros []|].
  change (expandtabs_from tabsize column (x :: s)) with
    (if N.eqb x TAB then
       if 0 <? tabsize then
         repeat SPACE (tabsize - column mod tabsize)
         ++ expandtabs_from tabsize
              (column + (tabsize - column mod tabsize)) s
       else expandtabs_from tabsize column s
     else x :: expandtabs_from tabsize
                 (if N.eqb x LF || N.eqb x CR then 0 else S column) s).
  destruct (N.eqb x TAB).
  - destruct (0 <? tabsize).
    + intros H; apply in_app_or in H; destruct H as [H|H].
      * right; apply repeat_spec in H; exact H.
      * destruct (IH _ H) as [H'|H']; [left; right; exact H' | right; exact H'].
    + intros H; destruct (IH _ H) as [H'|H'];
        [left; right; exact H' | right; exact H'].
  - intros [H|H]; [left; left; exact H|].
    destruct (IH _ H) as [H'|H']; [left; right; exact H' | right; exact H'].
Qed.

Lemma expandtabs_without_tab (tabsize : nat) (s : str) :
  ~ In TAB s -> forall column, expandtabs_from tabsize column s = s.
Proof.
  induction s as [|x s IH]; intros Hno column; [reflexivity|].
  change (expandtabs_from tabsize column (x :: s)) with
    (if N.eqb x TAB then
       if 0 <? tabsize then
         repeat SPACE (tabsize - column mod tabsize)
         ++ expandtabs_from tabsize
              (column + (tabsize - column mod tabsize)) s
       else expandtabs_from tabsize column s
     else x :: expandtabs_from tabsize
                 (if N.eqb x LF || N.eqb x CR then 0 else S column) s).
  destruct (N.eqb_spec x TAB) as [->|Hx]; [contradiction Hno; left; reflexivity|].
  rewrite IH; [reflexivity|].
  intros H; apply Hno; right; exact H.
Qed.

(** What [send_message] sends, for every text whatever its words: each
    chunk has at least one and at most 4000 characters; the text with
    its tabs expanded is the chunks in order with blank text dropped
    before, between and after them; and the characters other than
    whitespace of the chunks joined are exactly those of the text, in
    order.  Wrapping loses whitespace only and never sends an empty or
    an over-long message. *)
Theorem wrap_any_text (U : Unicode) (text : str) :
  Forall (fun chunk => 1 <= length chunk <= 4000) (wrap U text 4000) /\
  interleaved (_munge_whitespace text) (wrap U text 4000) /\
  nonspace (concat (wrap U text 4000)) = nonspace text.
Proof.
  assert (Hw : 1 <= 4000) by lia.
  pose proof (wrap_interleaved U text 4000 Hw) as Hi.
  split; [|split; [exact Hi|]].
  - pose proof (wrap_lengths U text 4000 Hw) as Hl.
    pose proof (interleaved_nonempty _ _ Hi) as Hn.
    rewrite Forall_forall in *; intros chunk Hc.
    specialize (Hl chunk Hc); specialize (Hn chunk Hc).
    destruct chunk; [contradiction | simpl in *; lia].
  - rewrite (interleaved_nonspace _ _ Hi).
    apply expandtabs_nonspace.
Qed.

(** No chunk contains a tab, and every character of a chunk is a
    character of the text or a space: tabs are expanded to spaces
    before the text is cut, and nothing else is put in. *)
Theorem chunk_characters (U : Unicode) (text : str) :
  Forall (fun chunk =>
            forall c, In c chunk -> c <> TAB /\ (In c text \/ c = SPACE))
    (wrap U text 4000).
Proof.
  assert (Hw : 1 <= 4000) by lia.
  pose proof (wrap_interleaved U text 4000 Hw) as Hi.
  apply Forall_forall; intros chunk Hchunk c Hc.
  pose proof (interleaved_In _ _ _ _ Hi Hchunk Hc) as Hm.
  unfold _munge_whitespace, expandtabs in Hm; split.
  - intros ->; revert Hm; apply expandtabs_no_tab; lia.
  - exact (expandtabs_In _ _ _ _ Hm).
Qed.

Lemma wrap_nonblank (U : Unicode) (text : str) :
  blank text = false -> wrap U text 4000 <> [].
Proof.
  intros Hb E.
  assert (Hw : 1 <= 4000) by lia.
  pose proof (interleaved_nonspace _ _ (wrap_interleaved U text 4000 Hw))
    as Hn.
  rewrite E in Hn; simpl in Hn.
  unfold _munge_whitespace, expandtabs in Hn.
  rewrite expandtabs_nonspace in Hn; symmetry in Hn.
  apply nonspace_nil_blank in Hn; congruence.
Qed.

(** A text with at least one character that is not whitespace is never
    dropped: it gives at least one chunk, and over a network that
    answers at least one message is posted. *)
Theorem nonblank_text_is_sent (env : Env) (text : str) (w : World) :
  reliable env ->
  blank text = false ->
  exists chunk rest,
    wrap (unicode env) text 4000 = chunk :: rest /\
    send_message env text w
    = (Returned tt,
       {| last_title_file := last_title_file w;
          trace := trace w ++ transmissions env (chunk :: rest) |}).
Proof.
  intros Hrel Hb.
  pose proof (wrap_nonblank (unicode env) text Hb) as Hne.
  rewrite (send_message_world _ _ _ Hrel).
  destruct (wrap (unicode env) text 4000) as [|chunk rest];
    [contradiction Hne; reflexivity|].
  exists chunk, rest; split; reflexivity.
Qed.

Lemma nonblank_text_is_sent_witness :
  exists chunk rest,
    wrap Examples.latin1 Examples.short_text 4000 = chunk :: rest /\
    send_message (Examples.make_env [] Examples.page_ok Examples.summary_ok)
      Examples.short_text Examples.fresh
    = (Returned tt,
       {| last_title_file := None;
          trace := transmissions
                     (Examples.make_env [] Examples.page_ok
                        Examples.summary_ok) (chunk :: rest) |}).
Proof.
  apply (nonblank_text_is_sent
           (Examples.make_env [] Examples.page_ok Examples.summary_ok)
           Examples.short_text Examples.fresh).
  - split; intros; simpl; [destruct (str_eqb url RSS_FEED)|];
      eexists; reflexivity.
  - reflexivity.
Defined.

(** Both messages of an entry are sent whatever the title and the
    summary are, even empty ones: the markup around the title and the
    link line after the summary are never blank. *)
Theorem entry_messages_never_empty (U : Unicode)
    (entry_title entry_link summary : str) :
  wrap U (lit "<b>"%string ++ entry_title ++ lit "</b>"%string) 4000 <> [] /\
  wrap U (summary ++ [LF; LF; LINK_SYMBOL] ++ lit " <a href="%string
          ++ [QUOTE] ++ entry_link ++ [QUOTE]
          ++ lit ">Read full circular</a>"%string) 4000 <> [].
Proof.
  split; apply wrap_nonblank.
  - reflexivity.
  - rewrite !blank_app; simpl.
    apply andb_false_r.
Qed.

Lemma fill_line_all (width : nat) (chunks : list str) :
  forall n,
    n + length (concat chunks) <= width ->
    fill_line width n chunks = (chunks, []).
Proof.
  induction chunks as [|c chunks IH]; intros n Hn; [reflexivity|].
  simpl in *; rewrite length_app in Hn.
  replace (n + length c <=? width) with true
    by (symmetry; apply Nat.leb_le; lia).
  rewrite IH by lia; reflexivity.
Qed.

Lemma last_chunk_not_blank (chunks : list str) (c : char) :
  Forall (fun chunk => chunk <> []) chunks ->
  last_char None (concat chunks) = Some c ->
  isspace c = false ->
  drop_trailing_blank chunks = chunks.
Proof.
  intros Hne Hlast Hc; unfold drop_trailing_blank.
  destruct chunks as [|x chunks _] using rev_ind; [reflexivity|].
  rewrite rev_app_distr; simpl.
  apply Forall_app in Hne; destruct Hne as [_ Hx].
  inversion Hx as [|? ? Hx' _]; subst.
  rewrite concat_app in Hlast; simpl in Hlast.
  rewrite app_nil_r, last_char_app in Hlast.
  unfold last_char in Hlast at 1.
  destruct (rev x) as [|y r] eqn:E.
  - apply (f_equal (@rev char)) in E; rewrite rev_involutive in E.
    contradiction.
  - injection Hlast as ->.
    assert (Hin : In c x) by (apply in_rev; rewrite E; left; reflexivity).
    destruct (blank x) eqn:B; [|reflexivity].
    unfold blank in B.
    rewrite (proj1 (forallb_forall _ _) B c Hin) in Hc; discriminate.
Qed.

(** The common case: a text of at most 4000 characters without a tab
    whose last character is not whitespace is sent as one message, and
    that message is the text itself, leading whitespace and line breaks
    included. *)
Theorem short_text_one_chunk (U : Unicode) (text : str) (c : char) :
  length text <= 4000 ->
  ~ In TAB text ->
  last_char None text = Some c ->
  isspace c = false ->
  wrap U text 4000 = [text].
Proof.
  intros Hlen Htab Hlast Hc.
  unfold wrap, _munge_whitespace, expandtabs.
  rewrite (expandtabs_without_tab 8 text Htab 0), wrap_chunks_from.
  pose proof (split_from_nonempty U (length text) [] text) as Hne.
  assert (Hcat : concat (_split U text) = text)
    by (apply split_from_concat; apply Nat.le_refl).
  fold (_split U text) in Hne.
  destruct (_split U text) as [|c0 below] eqn:E.
  { simpl in Hcat; subst text; discriminate Hlast. }
  assert (Hm : measure (c0 :: below) = S (length text + length below)).
  { unfold measure; rewrite Hcat; simpl; lia. }
  rewrite Hm; cbn [wrap_from].
  assert (Hline : wrap_line 4000 false (c0 :: below) = ([], Some text)).
  { unfold wrap_line; rewrite andb_false_r.
    rewrite fill_line_all by (rewrite Hcat; simpl; lia).
    rewrite (last_chunk_not_blank (c0 :: below) c Hne)
      by (rewrite ?Hcat; assumption).
    rewrite Hcat; reflexivity. }
  rewrite Hline.
  destruct (length text + length below); reflexivity.
Qed.

Lemma short_text_one_chunk_witness :
  wrap Examples.latin1 (lit "<b>Monetary Policy Statement</b>"%string) 4000
  = [lit "<b>Monetary Policy Statement</b>"%string].
Proof.
  apply (short_text_one_chunk Examples.latin1
           (lit "<b>Monetary Policy Statement</b>"%string) 62%N).
  - apply Nat.leb_le; vm_compute; reflexivity.
  - intros H; vm_compute in H; repeat (destruct H as [H|H]; [discriminate H|]).
    exact H.
  - reflexivity.
  - reflexivity.
Defined.

(** ** The watermark as loaded *)

(** [load_last_title] changes nothing, and what it returns never has
    leading or trailing whitespace nor a carriage return, whatever the
    file holds: a title can only ever match the watermark if it has
    that form. *)
Theorem load_last_title_clean (w : World) :
  exists last_title,
    load_last_title w = (Returned last_title, w) /\
    no_surrounding_whitespace last_title /\
    ~ In CR last_title /\
    strip last_title = last_title.
Proof.
  exists (watermark w); split; [apply load_last_title_watermark|].
  destruct (watermark_clean w) as [Hs Hc].
  repeat split; try assumption; try apply Hs.
  apply strip_fixed; exact Hs.
Qed.

(** ** Worked runs *)

Lemma reliable_make_env (feed : list Entry)
    (summary : str -> exn + list (list (str * str))) :
  reliable (Examples.make_env feed Examples.page_ok summary).
Proof.
  split; intros; simpl; [destruct (str_eqb url RSS_FEED)|];
    eexists; reflexivity.
Defined.

Lemma parser_accepts_make_env (feed : list Entry)
    (page : str -> exn + Response)
    (summary : str -> exn + list (list (str * str))) :
  parser_accepts (Examples.make_env feed page summary).
Proof. intros markup; eexists; reflexivity. Defined.

Lemma main_feed_request_raises_witness :
  main Examples.offline Examples.fresh
  = (Raised ConnectionError,
     {| last_title_file := None; trace := [Get RSS_FEED] |}).
Proof.
  apply (main_feed_request_raises Examples.offline Examples.fresh
           ConnectionError).
  reflexivity.
Defined.

Lemma rerun_is_silent_witness :
  main (Examples.make_env [Examples.A; Examples.B] Examples.page_ok
          Examples.summary_ok)
    (snd (main (Examples.make_env [Examples.A; Examples.B] Examples.page_ok
                  Examples.summary_ok) Examples.fresh))
  = (Returned tt,
     {| last_title_file :=
          last_title_file
            (snd (main (Examples.make_env [Examples.A; Examples.B]
                          Examples.page_ok Examples.summary_ok)
                    Examples.fresh));
        trace :=
          trace
            (snd (main (Examples.make_env [Examples.A; Examples.B]
                          Examples.page_ok Examples.summary_ok)
                    Examples.fresh))
          ++ [Get RSS_FEED] |}).
Proof.
  apply (rerun_is_silent
           (Examples.make_env [Examples.A; Examples.B] Examples.page_ok
              Examples.summary_ok)
           Examples.fresh
           (Examples.ok_response (lit "<rss/>"%string))
           (Examples.ok_response (lit "<rss/>"%string))
           Examples.A [Examples.B] [Examples.B] (lit "A"%string)).
  - reflexivity.
  - reflexivity.
  - reflexivity.
  - reflexivity.
  - split; reflexivity.
  - intros [H|[]]; discriminate H.
  - vm_compute; reflexivity.
  - reflexivity.
  - reflexivity.
Defined.

Lemma unclean_title_is_always_new_witness :
  new_entries_of (watermark (Examples.stored (lit "A "%string)))
    [Examples.entry "A "; Examples.B]
  = match new_entries_of (watermark (Examples.stored (lit "A "%string)))
            [Examples.B] with
    | inl e => inl e
    | inr new_entries => inr (Examples.entry "A " :: new_entries)
    end.
Proof.
  apply (unclean_title_is_always_new (Examples.stored (lit "A "%string))
           (Examples.entry "A ") [Examples.B] (lit "A "%string)).
  - reflexivity.
  - intros [[_ H] _]; vm_compute in H; discriminate H.
Defined.

Lemma process_events_witness :
  process (Examples.make_env [Examples.A] Examples.page_ok
             Examples.summary_ok) Examples.A Examples.fresh
  = (Returned tt,
     {| last_title_file := None;
        trace := entry_events
                   (Examples.make_env [Examples.A] Examples.page_ok
                      Examples.summary_ok)
                   (lit "A"%string)
                   (lit "https://www.rbi.org.in/A"%string) |}).
Proof.
  apply (process_events
           (Examples.make_env [Examples.A] Examples.page_ok
              Examples.summary_ok) Examples.A Examples.fresh
           (lit "A"%string) (lit "https://www.rbi.org.in/A"%string)).
  - apply reliable_make_env.
  - apply parser_accepts_make_env.
  - reflexivity.
  - reflexivity.
Defined.

Lemma summarize_never_raises_witness :
  summarize (Examples.make_env [] Examples.page_ok Examples.summary_down)
    (lit "Circular text"%string) Examples.fresh
  = (Returned (lit "(summary unavailable)"%string), Examples.fresh) /\
  for_each
    (map (fun i => {| title := Some (fst i); link := Some (snd i) |})
       [(lit "B"%string, lit "https://www.rbi.org.in/B"%string);
        (lit "A"%string, lit "https://www.rbi.org.in/A"%string)])
    (process (Examples.make_env [] Examples.page_ok Examples.summary_down))
    Examples.fresh
  = (Returned tt,
     {| last_title_file := None;
        trace :=
          flat_map
            (fun i =>
               entry_events
                 (Examples.make_env [] Examples.page_ok Examples.summary_down)
                 (fst i) (snd i))
            [(lit "B"%string, lit "https://www.rbi.org.in/B"%string);
             (lit "A"%string, lit "https://www.rbi.org.in/A"%string)] |}).
Proof.
  split.
  - apply (proj1 (summarize_never_raises
                    (Examples.make_env [] Examples.page_ok
                       Examples.summary_down))).
  - apply (proj2 (summarize_never_raises
                    (Examples.make_env [] Examples.page_ok
                       Examples.summary_down))
             (reliable_make_env [] Examples.summary_down)
             (parser_accepts_make_env [] Examples.page_ok
                Examples.summary_down)
             [(lit "B"%string, lit "https://www.rbi.org.in/B"%string);
              (lit "A"%string, lit "https://www.rbi.org.in/A"%string)]
             Examples.fresh).
Defined.

(** C6 at a service that answers: called with the text alone and the
    model as a keyword, [client.summarization] returns the summary of
    the model, and indexing it as the code does gives that summary; the
    call as [summarize] makes it never reaches the service, and
    [summarize] returns the placeholder. *)
Lemma summarize_discards_summary :
  let env := Examples.make_env [] Examples.page_ok Examples.summary_ok in
  let text := lit "The Reserve Bank of India today announced."%string in
  fst (bind (summarization env [text]
               (Some (lit "facebook/bart-large-cnn"%string)))
         (fun output =>
            bind (item0 output)
              (fun first => getitem first (lit "summary_text"%string)))
         Examples.fresh)
  = Returned (lit "Summary."%string) /\
  summarize env text Examples.fresh
  = (Returned (lit "(summary unavailable)"%string), Examples.fresh) /\
  filter is_summarization (trace (snd (summarize env text Examples.fresh)))
  = [].
Proof. repeat split. Qed.

Lemma pages_fetched_oldest_first_witness :
  (exists new_entries links,
     new_entries_of (watermark (Examples.stored (lit "C"%string)))
       [Examples.A; Examples.B; Examples.C]
     = inr new_entries /\
     map link (rev new_entries) = map Some links /\
     fetched (trace (snd (main (Examples.make_env
                                  [Examples.A; Examples.B; Examples.C]
                                  Examples.page_ok Examples.summary_ok)
                            (Examples.stored (lit "C"%string)))))
     = RSS_FEED :: links) /\
  fetched (trace (snd (main (Examples.make_env
                               [Examples.A; Examples.B; Examples.C]
                               Examples.page_ok Examples.summary_ok)
                         (Examples.stored (lit "C"%string)))))
  = [RSS_FEED; lit "https://www.rbi.org.in/B"%string;
     lit "https://www.rbi.org.in/A"%string].
Proof.
  split; [|vm_compute; reflexivity].
  apply (pages_fetched_oldest_first
           (Examples.make_env [Examples.A; Examples.B; Examples.C]
              Examples.page_ok Examples.summary_ok)
           (Examples.stored (lit "C"%string))
           (Examples.ok_response (lit "<rss/>"%string))).
  - reflexivity.
  - reflexivity.
  - vm_compute; reflexivity.
Defined.

Lemma fetch_full_text_stripped_witness :
  fst (fetch_full_text
         (Examples.with_page
            (Examples.make_env [] Examples.page_ok Examples.summary_ok)
            Examples.both_page)
         (lit "https://www.rbi.org.in/x"%string) Examples.fresh)
  = Returned (lit "Release text"%string) /\
  no_surrounding_whitespace (lit "Release text"%string).
Proof.
  split; [reflexivity|].
  apply (fetch_full_text_stripped
           (Examples.with_page
              (Examples.make_env [] Examples.page_ok Examples.summary_ok)
              Examples.both_page)
           (lit "https://www.rbi.org.in/x"%string) Examples.fresh
           (lit "Release text"%string)).
  reflexivity.
Defined.

Lemma fetch_full_text_fallback_empty_or_long_witness :
  exists full_text,
    fst (fetch_full_text
           (Examples.with_page
              (Examples.make_env [] Examples.page_ok Examples.summary_ok)
              (bs4.Tag (lit "[document]"%string) []
                 [Examples.panel [Examples.paragraph "Ends"]]))
           (lit "https://www.rbi.org.in/x"%string) Examples.fresh)
    = Returned full_text /\
    (full_text = [] <->
     Forall (fun p => length (bs4.get_text p []) <= 20)
       (bs4.find_all (Examples.panel [Examples.paragraph "Ends"])
          (lit "p"%string) None)) /\
    (full_text <> [] -> 20 < length full_text).
Proof.
  apply (fetch_full_text_fallback_empty_or_long
           (Examples.with_page
              (Examples.make_env [] Examples.page_ok Examples.summary_ok)
              (bs4.Tag (lit "[document]"%string) []
                 [Examples.panel [Examples.paragraph "Ends"]]))
           (lit "https://www.rbi.org.in/x"%string) Examples.fresh
           (Examples.ok_response (lit "<html/>"%string))
           (bs4.Tag (lit "[document]"%string) []
              [Examples.panel [Examples.paragraph "Ends"]])
           (Examples.panel [Examples.paragraph "Ends"]));
    reflexivity.
Defined.

(** ** The chunks of a text *)

Lemma firstn_nws_run (n : nat) (s : str) :
  n <= nws_run s ->
  forallb (fun c => negb (_whitespace c)) (firstn n s) = true.
Proof.
  revert s; induction n as [|n IH]; intros [|c s] H; try reflexivity.
  simpl in H; destruct (_whitespace c) eqn:E; [lia|].
  simpl; rewrite E; simpl; apply IH; lia.
Qed.

Lemma split_from_kinds (U : Unicode) :
  forall fuel prev rest,
    Forall (fun chunk =>
              forallb _whitespace chunk = true \/
              forallb (fun c => negb (_whitespace c)) chunk = true)
      (split_from U fuel prev rest).
Proof.
  induction fuel as [|fuel IH]; intros prev rest; [constructor|].
  destruct rest as [|c rest']; [constructor|].
  rewrite split_from_cons.
  destruct (match_len_spec U prev c rest') as [_ [_ [H _]]].
  constructor; [|apply IH].
  destruct H as [H|H]; [left; exact H | right].
  apply firstn_nws_run; exact H.
Qed.

(** Splitting a text into chunks loses nothing and never mixes: the
    chunks joined are the text, no chunk is empty, and each chunk is
    either whitespace only or free of whitespace (a word, a part of a
    hyphenated word, or a run of dashes). *)
Theorem split_chunks (U : Unicode) (text : str) :
  concat (_split U text) = text /\
  Forall (fun chunk =>
            chunk <> [] /\
            (forallb _whitespace chunk = true \/
             forallb (fun c => negb (_whitespace c)) chunk = true))
    (_split U text).
Proof.
  split; [apply split_from_concat; apply Nat.le_refl|].
  pose proof (split_from_nonempty U (length text) [] text) as Hn.
  pose proof (split_from_kinds U (length text) [] text) as Hk.
  unfold _split; rewrite Forall_forall in *.
  intros chunk Hc; split; [apply Hn | apply Hk]; exact Hc.
Qed.
